(** * Flux: arrow copy helpers, the REPL, and the execution engine
      contracts

    A shallow embedding of the Go sources

      - [internal/arrowutil/copy.gen.go.tmpl]   (module [Arrowutil])
      - [repl/repl.go]                          (module [Repl])
      - [internal/cmd/flux/execute.go]          (module [Repl], the result loop)

    together with models of the engine components that the sources only
    call into (module [Execute]). *)

From Stdlib Require Import ZArith Lia Ascii.
From stdpp Require Import base option list gmap strings sorting.

(** ** Go control flow: a call either returns or panics *)

Inductive result (A : Type) : Type :=
  | Ok (a : A)
  | Panic (msg : string).
Arguments Ok {A} a.
Arguments Panic {A} msg.

#[global] Instance result_ret : MRet result := fun _ a => Ok a.
#[global] Instance result_bind : MBind result := fun _ _ f m =>
  match m with
  | Ok a => f a
  | Panic msg => Panic msg
  end.

#[global] Instance result_fmap : FMap result := fun _ _ f m =>
  match m with
  | Ok a => Ok (f a)
  | Panic msg => Panic msg
  end.

(** [for i, n := 0, count; i < n; i++ { body }], started at [i]. *)
Fixpoint forRange {S : Type} (i count : nat) (body : nat -> S -> result S)
    (s : S) : result S :=
  match count with
  | O => Ok s
  | Datatypes.S c => s' ← body i s; forRange (Datatypes.S i) c body s'
  end.

(** ** internal/arrowutil/copy.gen.go.tmpl *)

Module Arrowutil.

(** Modelled from the spec: the [array] package (the Arrow arrays and
    their builders, the spec's typed columnar Buffer) is not among the
    sources. An array is its sequence of slots; a slot carries the
    validity bit and the raw value of the values buffer, which is present
    also under a null. A builder is the sequence of entries appended so
    far, a null entry being [None], with the capacities that [Reserve] and
    [ReserveData] maintain. *)
Record Slot (V : Type) : Type := { isnull : bool; raw : V }.
Arguments isnull {V} _.
Arguments raw {V} _.

(** The entry that stands for a slot in a builder. *)
Definition entry {V : Type} (s : Slot V) : option V :=
  if isnull s then None else Some (raw s).

Section Arrays.
Context {V : Type}.

(** Modelled from the spec: [arr.Len()], [arr.IsNull(i)] and
    [arr.Value(i)] of the missing [array] package. [Value] reads the
    values buffer whatever the validity bit says. An index outside
    [0, Len) is taken as a run-time panic. *)
Definition Len (arr : list (Slot V)) : nat := length arr.

Definition IsNull (arr : list (Slot V)) (i : nat) : result bool :=
  match arr !! i with
  | Some s => Ok (isnull s)
  | None => Panic "index out of range"
  end.

Definition Value (arr : list (Slot V)) (i : nat) : result V :=
  match arr !! i with
  | Some s => Ok (raw s)
  | None => Panic "index out of range"
  end.
End Arrays.

(** [int(indices.Value(i))]: an int64 read as an offset ([int] is 64 bits
    wide); a negative offset is out of range. *)
Definition offsetOf (z : Z) : result nat :=
  if (z <? 0)%Z then Panic "index out of range" else Ok (Z.to_nat z).

(** A row of the template data the file is generated from (the data file
    itself is not among the sources, so it is a parameter of the
    dispatching functions). [Append] and [Value_] name the typed append
    and read methods. *)
Record TmplEntry : Type := {
  Name : string;
  Type_ : string;
  Append : string;
  Value_ : string
}.

(** Modelled from the spec: [array.Interface] of the missing [array]
    package, the dynamic Go type and the slots. [Val] is the type
    of the values held by arrays, whatever their Go type. *)
Record Interface (Val : Type) : Type := {
  atype : string;
  aslots : list (Slot Val)
}.
Arguments atype {Val} _.
Arguments aslots {Val} _.

(** Modelled from the spec: [array.Builder] of the missing [array]
    package, the dynamic Go type, the entries appended so far, and the
    reserved capacities (entries, string bytes). *)
Record Builder (Val : Type) : Type := {
  btype : string;
  entries : list (option Val);
  cap : nat;
  dataCap : nat
}.
Arguments btype {Val} _.
Arguments entries {Val} _.
Arguments cap {Val} _.
Arguments dataCap {Val} _.

(** The entry that a copy of slot [j] of [arr] appends. *)
Definition slotEntry {Val : Type} (arr : list (Slot Val)) (j : nat) : option Val :=
  match arr !! j with
  | Some s => entry s
  | None => None
  end.

(** Every raw value of [indices], also one under a null, is an offset
    inside [arr]. *)
Definition inBounds {Val : Type} (arr : list (Slot Val)) (indices : list (Slot Z))
    : Prop :=
  Forall (fun s => (0 <= raw s < Z.of_nat (length arr))%Z) indices.

#[global] Instance inBounds_dec {Val : Type} (arr : list (Slot Val))
    (indices : list (Slot Z)) : Decision (inBounds arr indices).
Proof. unfold inBounds. apply _. Defined.

(** The entry that the copy by index appends for position [j] of
    [indices]. *)
Definition indexEntry {Val : Type} (arr : list (Slot Val))
    (indices : list (Slot Z)) (j : nat) : option Val :=
  match indices !! j with
  | Some s => slotEntry arr (Z.to_nat (raw s))
  | None => None
  end.

Section Template.
Context {Val : Type}.
(** The byte length of a value, what [arr.ValueLen(i)] of a string array
    returns. *)
Variable byteLen : Val -> nat.

Abbreviation Builder := (Builder Val).
Abbreviation Interface := (Interface Val).

(** Modelled from the spec: [arr.ValueLen(i)] of the missing [array]
    package. *)
Definition ValueLen (arr : list (Slot Val)) (i : nat) : result nat :=
  v ← Value arr i; Ok (byteLen v).

(** Modelled from the spec: the builder methods of the missing [array]
    package. [Reserve] and [ReserveData] make room and leave the entries
    alone; [AppendNull] and the typed append add one entry at the end. *)
Definition Reserve (n : nat) (b : Builder) : Builder :=
  {| btype := btype b; entries := entries b;
     cap := Nat.max (cap b) (length (entries b) + n);
     dataCap := dataCap b |}.

Definition ReserveData (n : nat) (b : Builder) : Builder :=
  {| btype := btype b; entries := entries b; cap := cap b;
     dataCap := dataCap b + n |}.

Definition push (o : option Val) (b : Builder) : Builder :=
  {| btype := btype b; entries := entries b ++ [o];
     cap := Nat.max (cap b) (Datatypes.S (length (entries b)));
     dataCap := dataCap b |}.

Definition AppendNull (b : Builder) : Builder := push None b.
Definition AppendValue (v : Val) (b : Builder) : Builder := push (Some v) b.

(** [Copy{{.Name}}Value] *)
Definition CopyNameValue (b : Builder) (arr : list (Slot Val)) (i : nat)
    : result Builder :=
  null ← IsNull arr i;
  if (null : bool) then Ok (AppendNull b)
  else v ← Value arr i; Ok (AppendValue v b).

(** [Copy{{.Name}}sTo] *)
Definition CopyNamesTo (e : TmplEntry) (b : Builder) (arr : list (Slot Val))
    : result Builder :=
  let b := Reserve (Len arr) b in
  b ← (if String.eqb (Name e) "String" then
         sz ← forRange 0 (Len arr) (fun i sz =>
                null ← IsNull arr i;
                if (null : bool) then Ok sz
                else l ← ValueLen arr i; Ok (sz + l)) 0;
         Ok (ReserveData sz b)
       else Ok b);
  forRange 0 (Len arr) (fun i b =>
    null ← IsNull arr i;
    if (null : bool) then Ok (AppendNull b)
    else v ← Value arr i; Ok (AppendValue v b)) b.

(** [Copy{{.Name}}sByIndexTo] *)
Definition CopyNamesByIndexTo (e : TmplEntry) (b : Builder)
    (arr : list (Slot Val)) (indices : list (Slot Z)) : result Builder :=
  let b := Reserve (Len indices) b in
  b ← (if String.eqb (Name e) "String" then
         sz ← forRange 0 (Len indices) (fun i sz =>
                z ← Value indices i;
                offset ← offsetOf z;
                null ← IsNull arr offset;
                if (null : bool) then Ok sz
                else l ← ValueLen arr offset; Ok (sz + l)) 0;
         Ok (ReserveData sz b)
       else Ok b);
  forRange 0 (Len indices) (fun i b =>
    z ← Value indices i;
    offset ← offsetOf z;
    null ← IsNull arr offset;
    if (null : bool) then Ok (AppendNull b)
    else v ← Value arr offset; Ok (AppendValue v b)) b.

(** The template data: one row per generated array type. *)
Variable tmpldata : list TmplEntry.

(** The type switch [switch arr := arr.(type)]: the first case whose
    type is the dynamic type of [arr]. *)
Definition typeSwitch (arr : Interface) : option TmplEntry :=
  List.find (fun e => String.eqb (Type_ e) (atype arr)) tmpldata.

(** The type assertion of [b] to the pointer-to-[{{.Type}}Builder] type. *)
Definition assertBuilder (e : TmplEntry) (b : Builder) : result Builder :=
  if String.eqb (btype b) (Type_ e +:+ "Builder") then Ok b
  else Panic "interface conversion".

Definition CopyTo (b : Builder) (arr : Interface) : result Builder :=
  match typeSwitch arr with
  | Some e => b ← assertBuilder e b; CopyNamesTo e b (aslots arr)
  | None => Panic "unsupported array data type"
  end.

Definition CopyByIndexTo (b : Builder) (arr : Interface)
    (indices : list (Slot Z)) : result Builder :=
  match typeSwitch arr with
  | Some e => b ← assertBuilder e b; CopyNamesByIndexTo e b (aslots arr) indices
  | None => Panic "unsupported array data type"
  end.

Definition CopyValue (b : Builder) (arr : Interface) (i : nat)
    : result Builder :=
  match typeSwitch arr with
  | Some e => b ← assertBuilder e b; CopyNameValue b (aslots arr) i
  | None => Panic "unsupported array data type"
  end.

(** [arr] is supported when the template has a case for its type, and
    [b] matches it when it is the builder of that very type. *)
Definition supported (arr : Interface) : Prop :=
  atype arr ∈ map Type_ tmpldata.

Definition matching (b : Builder) (arr : Interface) : Prop :=
  btype b = atype arr +:+ "Builder".

#[global] Instance supported_dec (arr : Interface) : Decision (supported arr).
Proof. unfold supported. apply _. Defined.

#[global] Instance matching_dec (b : Builder) (arr : Interface)
    : Decision (matching b arr).
Proof. unfold matching. apply _. Defined.

End Template.

(** The bytes of the values of [arr] that are not null. *)
Definition dataBytes {Val : Type} (byteLen : Val -> nat) (arr : list (Slot Val))
    : nat :=
  sum_list (map (fun s => from_option byteLen 0 (entry s)) arr).

(** Sample data: two rows of template data, a string array with a null
    in the middle, a builder that already holds one entry, and an index
    array that reads the array backwards and repeats an offset. *)
Definition sampleTmpldata : list TmplEntry :=
  [ {| Name := "Int"; Type_ := "array.Int";
       Append := "Append"; Value_ := "Value" |};
    {| Name := "String"; Type_ := "array.String";
       Append := "Append"; Value_ := "Value" |} ].

Definition sampleArray : Interface string :=
  {| atype := "array.String";
     aslots := [ {| isnull := false; raw := "a" |};
                 {| isnull := true; raw := "" |};
                 {| isnull := false; raw := "bc" |} ] |}.

Definition sampleBuilder : Builder string :=
  {| btype := "array.StringBuilder"; entries := [Some "x"];
     cap := 1; dataCap := 1 |}.

Definition sampleIndices : list (Slot Z) :=
  [ {| isnull := false; raw := 2%Z |};
    {| isnull := false; raw := 1%Z |};
    {| isnull := true; raw := 0%Z |};
    {| isnull := false; raw := 2%Z |} ].

(** Further sample data: an array of a type without a template case, a
    builder of another type, the sample array with other bytes under its
    null, and the sample indices with other validity bits. *)
Definition sampleFloatArray : Interface string :=
  {| atype := "array.Float"; aslots := [ {| isnull := false; raw := "1.5" |} ] |}.

Definition sampleIntBuilder : Builder string :=
  {| btype := "array.IntBuilder"; entries := []; cap := 0; dataCap := 0 |}.

Definition sampleArrayDirty : Interface string :=
  {| atype := "array.String";
     aslots := [ {| isnull := false; raw := "a" |};
                 {| isnull := true; raw := "stale" |};
                 {| isnull := false; raw := "bc" |} ] |}.

Definition sampleIndicesValid : list (Slot Z) :=
  [ {| isnull := false; raw := 2%Z |};
    {| isnull := true; raw := 1%Z |};
    {| isnull := false; raw := 0%Z |};
    {| isnull := true; raw := 2%Z |} ].

Definition sampleAllIndices : list (Slot Z) :=
  [ {| isnull := false; raw := 0%Z |};
    {| isnull := false; raw := 1%Z |};
    {| isnull := false; raw := 2%Z |} ].

End Arrowutil.

(** ** The execution engine

    The engine packages ([execute], [memory], the [flux] Table and Query
    interfaces) are called by the sources but are not among them; they are
    modelled here from the specification, sections 3 to 7. *)

Module Execute.

(** Modelled from the spec: the error taxonomy of section 7 (the engine's
    error values are missing from the sources). *)
Inductive Error : Type :=
  | CompileFault (msg : string)
  | ResourceExhausted
  | OperatorError (msg : string)
  | Canceled
  | InternalFault (msg : string).

#[global] Instance Error_eq_dec : EqDecision Error.
Proof. solve_decision. Defined.

(** *** Tables (sections 3 and 4.1) *)

(** Modelled from the spec: a GroupKey is an ordered set of (name, value)
    pairs, a ColumnSchema an ordered list of (name, type) pairs over a
    fixed set of primitive kinds (the [flux.Table] packages are missing
    from the sources). *)
Definition GroupKey : Type := list (string * string).

Inductive Kind : Type := KInt | KFloat | KString | KBool | KTime.

#[global] Instance Kind_eq_dec : EqDecision Kind.
Proof. solve_decision. Defined.

Definition ColumnSchema : Type := list (string * Kind).

(** Modelled from the spec: the lifecycle of a Table. It is sealed by its
    builder, consumed by one [Do] pass, then released. *)
Inductive Phase : Type := Sealed | Consumed | Released.

#[global] Instance Phase_eq_dec : EqDecision Phase.
Proof. solve_decision. Defined.

(** Modelled from the spec: a Table is a GroupKey, a ColumnSchema and one
    buffer per column (cells in their CSV form), together with its place
    in the lifecycle. *)
Record Table : Type := {
  Key : GroupKey;
  Schema : ColumnSchema;
  Columns : list (list string);
  phase : Phase
}.

(** Modelled from the spec: the builder API, [Append] on a column and
    [Seal], which gives the immutable Table. *)
Record TableBuilder : Type := {
  bKey : GroupKey;
  bSchema : ColumnSchema;
  bColumns : list (list string)
}.

Definition AppendCell (j : nat) (cell : string) (b : TableBuilder) : TableBuilder :=
  {| bKey := bKey b; bSchema := bSchema b;
     bColumns := alter (fun col => col ++ [cell]) j (bColumns b) |}.

Definition Seal (b : TableBuilder) : Table :=
  {| Key := bKey b; Schema := bSchema b; Columns := bColumns b;
     phase := Sealed |}.

(** The sealed one-column Table of a key. *)
Definition tableOf (k : GroupKey) (cells : list string) : Table :=
  Seal {| bKey := k; bSchema := [("_value", KString)]; bColumns := [cells] |}.

(** Modelled from the spec: the errors of a [Do] on a Table that was
    consumed or released (a contract violation, an OperatorError). *)
Definition alreadyRead : Error := OperatorError "table already read".
Definition alreadyReleased : Error := OperatorError "table released".

(** Modelled from the spec: [Do(f)] applies [f] to the columns of the
    batch; the pass consumes the Table, and a call on a Table that was
    consumed or released fails without calling [f]. The callback works on
    a state [S] of the caller (what it has read or written so far) and
    returns an error or nil ([None]). *)
Definition Do {S : Type} (f : list (list string) -> S -> S * option Error)
    (t : Table) (s : S) : Table * S * option Error :=
  match phase t with
  | Sealed =>
      let '(s', r) := f (Columns t) s in
      ({| Key := Key t; Schema := Schema t; Columns := Columns t;
          phase := Consumed |}, s', r)
  | Consumed => (t, s, Some alreadyRead)
  | Released => (t, s, Some alreadyReleased)
  end.

(** Modelled from the spec: release frees the buffers of the Table. *)
Definition Release (t : Table) : Table :=
  {| Key := Key t; Schema := Schema t; Columns := []; phase := Released |}.

(** A caller's further use of a Table: [Do] calls and releases, in any
    order. *)
Inductive TableOp (S : Type) : Type :=
  | OpDo (f : list (list string) -> S -> S * option Error)
  | OpRelease.
Arguments OpDo {S} f.
Arguments OpRelease {S}.

Definition tableStep {S : Type} (t : Table) (s : S) (op : TableOp S)
    : Table * S * option Error :=
  match op with
  | OpDo f => Do f t s
  | OpRelease => (Release t, s, None)
  end.

(** The errors returned by a run of operations, one per operation, and
    the caller's state at the end. *)
Fixpoint tableRun {S : Type} (t : Table) (s : S) (ops : list (TableOp S))
    : list (option Error) * S :=
  match ops with
  | [] => ([], s)
  | op :: ops =>
      let '(t', s', r) := tableStep t s op in
      let '(rs, s'') := tableRun t' s' ops in
      (r :: rs, s'')
  end.

(** A Table that cannot be iterated any more. *)
Definition spent (t : Table) : Prop := phase t <> Sealed.

(** *** Messages and the per-key protocol (sections 3 and 4.5) *)

(** Modelled from the spec: a Message is [Process(Table)] or
    [Finish(GroupKey, error|nil)] (the dispatcher is missing from the
    sources). *)
Inductive Message : Type :=
  | Process (t : Table)
  | Finish (k : GroupKey) (err : option Error).

(** Modelled from the spec: the state of a GroupKey at a node,
    [Open] (receiving Process), [Finishing] (Finish delivered, flush in
    progress), [Closed] (no further messages accepted). *)
Inductive KeyState : Type := Open | Finishing | Closed.

#[global] Instance KeyState_eq_dec : EqDecision KeyState.
Proof. solve_decision. Defined.

Definition Edge : Type := nat.

(** Modelled from the spec: what happens at a node, a message is
    delivered on one of its input edges, or the flush that a Finish
    started completes. *)
Inductive NodeEvent : Type :=
  | Deliver (e : Edge) (m : Message)
  | Flushed (e : Edge) (k : GroupKey).

(** Modelled from the spec: the states of the keys seen on each input
    edge of a node; a key that was not seen yet is [Open]. *)
Definition keyState (st : gmap (Edge * GroupKey) KeyState) (e : Edge)
    (k : GroupKey) : KeyState :=
  default Open (st !! (e, k)).

Definition protocolViolation : Error := InternalFault "protocol violation".

(** Modelled from the spec: the state machine per GroupKey. Process is
    accepted in [Open] only; Finish moves [Open] to [Finishing], once;
    the end of the flush moves [Finishing] to [Closed]; anything else is
    a protocol violation, an internal fault. *)
Definition nodeStep (st : gmap (Edge * GroupKey) KeyState) (ev : NodeEvent)
    : Error + gmap (Edge * GroupKey) KeyState :=
  match ev with
  | Deliver e (Process t) =>
      match keyState st e (Key t) with
      | Open => inr (<[(e, Key t) := Open]> st)
      | _ => inl protocolViolation
      end
  | Deliver e (Finish k _) =>
      match keyState st e k with
      | Open => inr (<[(e, k) := Finishing]> st)
      | _ => inl protocolViolation
      end
  | Flushed e k =>
      match keyState st e k with
      | Finishing => inr (<[(e, k) := Closed]> st)
      | _ => inl protocolViolation
      end
  end.

Fixpoint nodeRun (st : gmap (Edge * GroupKey) KeyState) (evs : list NodeEvent)
    : Error + gmap (Edge * GroupKey) KeyState :=
  match evs with
  | [] => inr st
  | ev :: evs =>
      match nodeStep st ev with
      | inr st' => nodeRun st' evs
      | inl err => inl err
      end
  end.

(** Modelled from the spec: a node has drained when every key it has
    seen is [Closed]. *)
Definition drained (st : gmap (Edge * GroupKey) KeyState) : Prop :=
  map_Forall (fun _ s => s = Closed) st.

#[global] Instance drained_dec st : Decision (drained st).
Proof. unfold drained. apply _. Defined.

Definition isProcess (e : Edge) (k : GroupKey) (ev : NodeEvent) : bool :=
  match ev with
  | Deliver e' (Process t) => bool_decide (e' = e /\ Key t = k)
  | _ => false
  end.

Definition isFinish (e : Edge) (k : GroupKey) (ev : NodeEvent) : bool :=
  match ev with
  | Deliver e' (Finish k' _) => bool_decide (e' = e /\ k' = k)
  | _ => false
  end.

(** The number of events of a trace that satisfy [p]. *)
Fixpoint count (p : NodeEvent -> bool) (evs : list NodeEvent) : nat :=
  match evs with
  | [] => 0
  | ev :: evs => (if p ev then 1 else 0) + count p evs
  end.

(** *** Sources and delivery (sections 3, 4.3, 4.5 and 6) *)

(** Modelled from the spec: what a Source sends for a key, one Process
    for every Table it has built from the rows of the key, then the Finish
    of the key, with the error it ends on. A key without Tables is not
    produced. (The Sources are missing from the sources.) *)
Definition emitKey (k : GroupKey) (chunks : list (list string))
    (err : option Error) : list Message :=
  match chunks with
  | [] => []
  | _ => (Process <$> (tableOf k <$> chunks)) ++ [Finish k err]
  end.

(** Modelled from the spec: a Source over the keys of its reader, taken
    one after the other. [budget] is the number of chunks it pulls before
    it finds the context cancelled ([None]: it never does); it looks at
    the context before every pull. On cancellation it stops pulling and
    sends the Finish of the key it has open, with the [Canceled] error. *)
Fixpoint sourceSeries (series : list (GroupKey * list (list string)))
    (budget : option nat) : list Message :=
  match series with
  | [] => []
  | (k, chunks) :: series =>
      match budget with
      | None => emitKey k chunks None ++ sourceSeries series None
      | Some n =>
          if n <? length chunks
          then emitKey k (take n chunks) (Some Canceled)
          else emitKey k chunks None
               ++ sourceSeries series (Some (n - length chunks))
      end
  end.

(** Modelled from the spec: the external reader exposes a row iterator
    per key; here it is the finite map from each key to its rows, in the
    chunks that become Tables. *)
Definition sourceSend (reader : gmap GroupKey (list (list string)))
    (budget : option nat) : list Message :=
  sourceSeries (map_to_list reader) budget.

(** Modelled from the spec: the GroupKey a message is about, the key of
    the Table of a Process, the key of a Finish. *)
Definition msgKey (m : Message) : GroupKey :=
  match m with
  | Process t => Key t
  | Finish k _ => k
  end.

(** Modelled from the spec: the (edge, key) that a pending message
    belongs to, the unit of the FIFO order. *)
Definition slotOf (it : Edge * Message) : Edge * GroupKey :=
  (it.1, msgKey it.2).

(** Modelled from the spec: [Deliver] enqueues. The Sources of a node sit
    on its input edges 0, 1, ...; what they send is pending at the node,
    oldest first on each edge. *)
Fixpoint enqueueFrom (e : Edge)
    (sources : list (gmap GroupKey (list (list string)) * option nat))
    : list (Edge * Message) :=
  match sources with
  | [] => []
  | src :: sources =>
      (pair e <$> sourceSend src.1 src.2) ++ enqueueFrom (S e) sources
  end.

(** Modelled from the spec: the oldest pending message of an
    (edge, key), and what stays pending without it. *)
Fixpoint takeFirst (s : Edge * GroupKey) (pending : list (Edge * Message))
    : option ((Edge * Message) * list (Edge * Message)) :=
  match pending with
  | [] => None
  | it :: pending =>
      if decide (slotOf it = s) then Some (it, pending)
      else match takeFirst s pending with
           | Some (x, rest) => Some (x, it :: rest)
           | None => None
           end
  end.

(** Modelled from the spec: each edge delivers the messages of a GroupKey
    in the order sent, with no order across keys or across edges. The
    dispatcher settles on a pending message ([pick], the scheduling, which
    may be anything) and delivers the oldest pending message of its
    (edge, key). *)
Definition dispatchNext (pick : list (Edge * Message) -> nat)
    (pending : list (Edge * Message))
    : option ((Edge * Message) * list (Edge * Message)) :=
  match pending !! (pick pending `mod` length pending) with
  | Some it => takeFirst (slotOf it) pending
  | None => None
  end.

(** Modelled from the spec: the dispatcher delivers one pending message
    after the other, for [fuel] steps or until nothing is pending. *)
Fixpoint deliverAll (pick : list (Edge * Message) -> nat) (fuel : nat)
    (pending : list (Edge * Message)) : list (Edge * Message) :=
  match fuel with
  | O => []
  | S fuel =>
      match dispatchNext pick pending with
      | Some (it, rest) => it :: deliverAll pick fuel rest
      | None => []
      end
  end.

(** Modelled from the spec: the deliveries of a full drain, in their
    order, one step for every pending message. *)
Definition delivered (pick : list (Edge * Message) -> nat)
    (pending : list (Edge * Message)) : list (Edge * Message) :=
  deliverAll pick (length pending) pending.

(** Modelled from the spec: deliveries to a node run one at a time; the
    delivery of a Finish ends with the flush of the key. *)
Definition nodeEvents (it : Edge * Message) : list NodeEvent :=
  match it.2 with
  | Process t => [Deliver it.1 (Process t)]
  | Finish k err => [Deliver it.1 (Finish k err); Flushed it.1 k]
  end.

(** Modelled from the spec: what happens at a node fed by [sources]
    under the scheduling [pick]. *)
Definition engineTrace (pick : list (Edge * Message) -> nat)
    (sources : list (gmap GroupKey (list (list string)) * option nat))
    : list NodeEvent :=
  flat_map nodeEvents (delivered pick (enqueueFrom 0 sources)).




(** Sample data: two keys on edge 0 of a node, their tables, and a
    delivery sequence that interleaves them and ends drained. *)
Definition keyA : GroupKey := [("_field", "a")].
Definition keyB : GroupKey := [("_field", "b")].

Definition sampleTrace : list NodeEvent :=
  [ Deliver 0 (Process (tableOf keyA ["1"]));
    Deliver 0 (Process (tableOf keyB ["2"]));
    Deliver 0 (Process (tableOf keyA ["3"]));
    Deliver 0 (Finish keyA None);
    Flushed 0 keyA;
    Deliver 0 (Finish keyB (Some Canceled));
    Flushed 0 keyB ].

Definition sampleFinal : gmap (Edge * GroupKey) KeyState :=
  <[(0, keyA) := Closed]> (<[(0, keyB) := Closed]> ∅).

(** Sample readers: one with both keys, the other with [keyA] only; the
    first Source is cancelled after three pulls. The sample scheduling
    settles on the newest pending message. *)
Definition sampleReader : gmap GroupKey (list (list string)) :=
  {[ keyA := [["1"]; ["3"]]; keyB := [["2"]; ["4"]; ["5"]] ]}.

Definition sampleSources
    : list (gmap GroupKey (list (list string)) * option nat) :=
  [ (sampleReader, Some 3); ({[ keyA := [["6"]] ]}, None) ].

Definition pickNewest (pending : list (Edge * Message)) : nat :=
  length pending - 1.

End Execute.

(** ** repl/repl.go and internal/cmd/flux/execute.go *)

Module Repl.
Import Execute.

(** Modelled from the spec: a named Result stream (the [flux.Result]
    interface is missing from the sources). [Tables] is the finite
    sequence of Tables that the iterator of the Result hands out, and
    [DoErr] the error with which its [Do] returns after them when the
    stream itself has failed ([None]: it has not). *)
Record Result : Type := {
  Name : string;
  Tables : list Table;
  DoErr : option Error
}.

(** Modelled from the spec: the handle of a started Query, its Result
    streams and its terminal error (the [flux.Query] interface is missing
    from the sources). *)
Record Query : Type := {
  Results : list Result;
  QueryErr : option Error
}.

(** Modelled from the spec: the outcome of [Compile] followed by
    [Start], an error of either, or the started Query. *)
Inductive Started : Type :=
  | CompileFailed (err : Error)
  | StartFailed (err : Error)
  | Running (qry : Query).

(** *** The cancel slot of the REPL *)

(** A [context.CancelFunc], by its identity. *)
Definition CancelFunc : Type := nat.

(** The part of the [REPL] struct that [cancel], [setCancel] and
    [clearCancel] work on: the [cancelFunc] field ([None] is nil). Each
    method holds [cancelMu] from entry to return, so calls from several
    goroutines take effect one after the other. [called] lists the cancel
    functions that [cancel] has invoked, oldest first. *)
Record REPL : Type := {
  cancelFunc : option CancelFunc;
  called : list CancelFunc
}.

(** [New]: the [cancelFunc] field is left at its zero value. *)
Definition New : REPL := {| cancelFunc := None; called := [] |}.

Definition cancel (r : REPL) : REPL :=
  match cancelFunc r with
  | Some cf => {| cancelFunc := None; called := called r ++ [cf] |}
  | None => r
  end.

Definition setCancel (cf : option CancelFunc) (r : REPL) : REPL :=
  {| cancelFunc := cf; called := called r |}.

Definition clearCancel (r : REPL) : REPL := setCancel None r.

(** The functions that a [cancel] could still invoke: the one in the
    slot, if any. *)
Definition pending (r : REPL) : nat :=
  match cancelFunc r with
  | Some _ => 1
  | None => 0
  end.

(** The calls that reach the cancel slot, from the signal goroutine and
    from [doQuery]. *)
Inductive SlotOp : Type :=
  | OpCancel
  | OpSetCancel (cf : option CancelFunc)
  | OpClearCancel.

Definition slotStep (r : REPL) (op : SlotOp) : REPL :=
  match op with
  | OpCancel => cancel r
  | OpSetCancel cf => setCancel cf r
  | OpClearCancel => clearCancel r
  end.

Definition slotRun (r : REPL) (ops : list SlotOp) : REPL := foldl slotStep r ops.

(** The [setCancel] calls of a run that store a function, and their
    number. *)
Definition registers (op : SlotOp) : bool :=
  match op with
  | OpSetCancel (Some _) => true
  | _ => false
  end.

Definition registrations (ops : list SlotOp) : nat :=
  length (List.filter registers ops).

(** *** The result loop *)

Section Printing.
(** [execute.NewFormatter(tbl, nil).WriteTo(os.Stdout)]: the text written
    for a Table, or the error of the write. *)
Variable WriteTo : Table -> Error + string.

(** [tables.Do(func(tbl flux.Table) error { ... })]: the Tables are written
    in order, up to the first write that fails; [Do] returns the error of
    that write, and otherwise the error [doErr] of the stream itself. *)
Fixpoint writeTables (ts : list Table) (doErr : option Error)
    (out : list string) : list string * option Error :=
  match ts with
  | [] => (out, doErr)
  | t :: ts =>
      match WriteTo t with
      | inr text => writeTables ts doErr (out ++ [text])
      | inl err => (out, Some err)
      end
  end.

(** [for result := range qry.Results() { ... }]: the name line, then the
    Tables; the first error ends the loop and is returned. *)
Fixpoint printResults (rs : list Result) (out : list string)
    : list string * option Error :=
  match rs with
  | [] => (out, None)
  | res :: rs =>
      match writeTables (Tables res) (DoErr res)
              (out ++ ["Result: " +:+ Name res]) with
      | (out', None) => printResults rs out'
      | (out', Some err) => (out', Some err)
      end
  end.

(** What a call of [doQuery] leaves behind: the REPL, the text on
    standard output, the cancel functions that its deferred calls invoked
    directly, and the error returned. *)
Record Ran : Type := {
  repl : REPL;
  stdout : list string;
  deferred : list CancelFunc;
  returned : option Error
}.

(** [doQuery], with [cf] the cancel function of the context it derives.
    The deferred [r.clearCancel()] and [cancelFunc()] run on every
    return. *)
Definition doQuery (cf : CancelFunc) (started : Started) (r : REPL) : Ran :=
  let r := setCancel (Some cf) r in
  let '(out, err) :=
    match started with
    | CompileFailed err => ([], Some err)
    | StartFailed err => ([], Some err)
    | Running qry =>
        match printResults (Results qry) [] with
        | (out, Some err) => (out, Some err)
        | (out, None) => (out, QueryErr qry)
        end
    end in
  {| repl := clearCancel r; stdout := out; deferred := [cf];
     returned := err |}.

(** [csv.NewMultiResultEncoder(config).Encode(os.Stdout, results)]: the
    text written, or the error of the encoder. *)
Variable Encode : list Result -> Error + string.

(** [executeE] of [internal/cmd/flux/execute.go]: the text on standard
    output and the error returned. *)
Definition executeE (started : Started) (format : string)
    : list string * option Error :=
  match started with
  | CompileFailed err => ([], Some err)
  | StartFailed err => ([], Some err)
  | Running qry =>
      if String.eqb format "cli" then
        match printResults (Results qry) [] with
        | (out, Some err) => (out, Some err)
        | (out, None) => (out, QueryErr qry)
        end
      else if String.eqb format "csv" then
        match Encode (Results qry) with
        | inl err => ([], Some err)
        | inr text => ([text], QueryErr qry)
        end
      else ([], QueryErr qry)
  end.

End Printing.

(** The text of a Table on standard output when its write succeeds, and
    what a run of Results looks like there: for each Result its name line,
    then its Tables. *)
Definition textOf (WriteTo : Table -> Error + string) (t : Table) : string :=
  match WriteTo t with
  | inr text => text
  | inl _ => ""
  end.

Definition rendered (WriteTo : Table -> Error + string) (rs : list Result)
    : list string :=
  flat_map (fun res => ("Result: " +:+ Name res) :: map (textOf WriteTo) (Tables res))
           rs.

Definition writes (WriteTo : Table -> Error + string) (t : Table) : Prop :=
  exists text, WriteTo t = inr text.

#[global] Instance writes_dec WriteTo t : Decision (writes WriteTo t).
Proof.
  unfold writes. destruct (WriteTo t) as [err|text].
  - right. intros [? ?]. done.
  - left. by eexists.
Defined.

(** Sample data: a writer that fails on the Tables of [keyB], a Query
    with such a Table, a Query without one, and a Query whose second
    stream fails after its first Table. The Queries report [Canceled] as
    their own error. *)
Definition sampleWriteTo (t : Table) : Error + string :=
  if bool_decide (Key t = keyB) then inl (OperatorError "write failed")
  else inr (String.concat "," (concat (Columns t))).

Definition sampleResult : Result :=
  {| Name := "_result";
     Tables := [tableOf keyA ["1"; "2"]; tableOf keyB ["3"]; tableOf keyA ["4"]];
     DoErr := None |}.

Definition sampleQuery : Query :=
  {| Results := [ {| Name := "first"; Tables := [tableOf keyA ["0"]];
                     DoErr := None |};
                  sampleResult;
                  {| Name := "last"; Tables := [tableOf keyA ["5"]];
                     DoErr := None |} ];
     QueryErr := Some Canceled |}.

Definition sampleQueryWritable : Query :=
  {| Results := [ {| Name := "first"; Tables := [tableOf keyA ["0"]];
                     DoErr := None |};
                  {| Name := "last"; Tables := [tableOf keyA ["5"; "6"]];
                     DoErr := None |} ];
     QueryErr := Some Canceled |}.

Definition sampleFailedResult : Result :=
  {| Name := "second"; Tables := [tableOf keyA ["1"]];
     DoErr := Some (OperatorError "division by zero") |}.

Definition sampleQueryFailing : Query :=
  {| Results := [ {| Name := "first"; Tables := [tableOf keyA ["0"]];
                     DoErr := None |};
                  sampleFailedResult;
                  {| Name := "last"; Tables := [tableOf keyA ["5"]];
                     DoErr := None |} ];
     QueryErr := Some Canceled |}.

(** *** Loading and evaluating a line *)

Section Loading.
(** Go's [error] values of the file system, the analyzer and the
    interpreter. *)
Context {E : Type}.
(** [ioutil.ReadAll(os.Stdin)] and [ioutil.ReadFile(name)]. *)
Variable Stdin : E + string.
Variable ReadFile : string -> E + string.

(** [LoadQuery]: the string returned and the error ([None] is nil). *)
Definition LoadQuery (q : string) : string * option E :=
  if String.eqb q "-" then
    match Stdin with
    | inl err => ("", Some err)
    | inr data => (data, None)
    end
  else
    match q with
    | String c rest =>
        if Ascii.eqb c "@"%char then
          match ReadFile rest with
          | inl err => ("", Some err)
          | inr data => (data, None)
          end
        else (q, None)
    | EmptyString => (q, None)
    end.

(** The packages that the analyzer, the flatbuffer encoding and the
    decoder produce, the context, the state of the interpreter with the
    scope, and the side effects of an evaluation: all of packages that are
    not among the sources. *)
Context {FluxPkg Bytes SemPkg Ctx Interp SideEffect : Type}.
(** [r.analyzer.Analyze(libflux.ParseString(t))], [pkg.MarshalFB()] and
    [semantic.DeserializeFromFlatBuffer(bs)]. *)
Variable Analyze : string -> E + FluxPkg.
Variable MarshalFB : FluxPkg -> E + Bytes.
Variable DeserializeFromFlatBuffer : Bytes -> E + SemPkg.
(** [execute.DefaultExecutionDependencies().Inject(ctx)] and
    [r.itrp.Eval(ctx, pkg, r.scope, r.importer)], which returns side
    effects and an error and works on the interpreter and the scope. *)
Variable Inject : Ctx -> Ctx.
Variable itrpEval : Ctx -> SemPkg -> Interp -> Interp * (list SideEffect * option E).

Definition analyzeLine (t : string) : E + SemPkg :=
  match Analyze t with
  | inl err => inl err
  | inr pkg =>
      match MarshalFB pkg with
      | inl err => inl err
      | inr bs => DeserializeFromFlatBuffer bs
      end
  end.

(** The fields of the [REPL] struct that [Eval] works on. *)
Record EvalState : Type := {
  ctx : Ctx;
  interp : Interp
}.

(** The part of [Eval] after the line is loaded: analysis, injection of
    the execution dependencies, interpretation. *)
Definition evalText (t : string) (st : EvalState)
    : EvalState * (list SideEffect * option E) :=
  match analyzeLine t with
  | inl err => (st, ([], Some err))
  | inr pkg =>
      let ctx' := Inject (ctx st) in
      let '(itp, res) := itrpEval ctx' pkg (interp st) in
      ({| ctx := ctx'; interp := itp |}, res)
  end.

(** [Eval] *)
Definition Eval (t : string) (st : EvalState)
    : EvalState * (list SideEffect * option E) :=
  match t with
  | EmptyString => (st, ([], None))
  | String c _ =>
      if Ascii.eqb c "@"%char then
        match LoadQuery t with
        | (_, Some err) => (st, ([], Some err))
        | (q, None) => evalText q st
        end
      else evalText t st
  end.

End Loading.

(** *** Completion *)

(** [prompt.Suggest{Text: n}], and the parts of a [prompt.Document] that
    [completer] reads: [d.Text] and [d.GetWordBeforeCursor()]. *)
Record Suggest : Type := { SuggestText : string }.

Record Document : Type := {
  Text : string;
  WordBeforeCursor : string
}.

(** An entry of [ioutil.ReadDir]: [f.Name()] and [f.IsDir()]. *)
Record FileInfo : Type := {
  FileName : string;
  IsDir : bool
}.

(** [strings.HasPrefix(s, prefix)] and [strings.TrimPrefix(s, prefix)]. *)
Definition HasPrefix (s p : string) : bool := String.prefix p s.

Definition TrimPrefix (s p : string) : string :=
  if HasPrefix s p
  then String.substring (String.length p) (String.length s - String.length p) s
  else s.

(** [sort.Strings]: increasing byte order. *)
Fixpoint insertString (n : string) (l : list string) : list string :=
  match l with
  | [] => [n]
  | m :: l' => if String.leb n m then n :: l else m :: insertString n l'
  end.

Definition sortStrings (l : list string) : list string :=
  foldr insertString [] l.

(** The test of the loop over the names: [n == "_"], or [n] does not
    start with [_]. *)
Definition shown (n : string) : bool :=
  String.eqb n "_" || negb (HasPrefix n "_").

Section Completion.
Context {E : Type}.
(** [filepath.Glob], [filepath.Dir], [filepath.Join], [ioutil.ReadDir],
    [string(os.PathSeparator)] and [prompt.FilterHasPrefix]. *)
Variable Glob : string -> E + list string.
Variable Dir : string -> string.
Variable Join : string -> string -> string.
Variable ReadDir : string -> E + list FileInfo.
Variable PathSeparator : string.
Variable FilterHasPrefix : list Suggest -> string -> bool -> list Suggest.

Definition getFluxFiles (path : string) : E + list string :=
  Glob (path +:+ "*.flux").

Definition getDirs (path : string) : E + list string :=
  let dir := Dir path in
  match ReadDir dir with
  | inl err => inl err
  | inr files =>
      inr (foldl (fun dirs f =>
                    if IsDir f then dirs ++ [Join dir (FileName f)] else dirs)
                 [] files)
  end.

(** The slice [s] of [completer] before the final filter. [names] are the
    keys that [r.scope.Range] visits, in the order of the visit. *)
Definition candidates (names : list string) (d : Document) : list Suggest :=
  let names := sortStrings names in
  let s := foldl (fun s n =>
                    if shown n then s ++ [{| SuggestText := n |}] else s)
                 [] names in
  if String.eqb (Text d) "" || HasPrefix (Text d) "@" then
    let root := "./" +:+ TrimPrefix (Text d) "@" in
    let s := match getFluxFiles root with
             | inr fluxFiles =>
                 foldl (fun s fName => s ++ [{| SuggestText := "@" +:+ fName |}])
                       s fluxFiles
             | inl _ => s
             end in
    match getDirs root with
    | inr dirs =>
        foldl (fun s fName =>
                 s ++ [{| SuggestText := "@" +:+ fName +:+ PathSeparator |}])
              s dirs
    | inl _ => s
    end
  else s.

(** [completer] *)
Definition completer (names : list string) (d : Document) : list Suggest :=
  FilterHasPrefix (candidates names d) (WordBeforeCursor d) true.

End Completion.

(** The names offered for a scope: the sorted names that pass the test. *)
Definition offered (names : list string) : list string :=
  List.filter shown (sortStrings names).

(** Increasing byte order, as a relation. *)
Definition strLe (a b : string) : Prop := String.leb a b = true.

End Repl.
(** * Theorems *)

(** ** Counted loops *)

Lemma forRange_app {S : Type} (i n m : nat) (body : nat -> S -> result S) s :
  forRange i (n + m) body s = s' ← forRange i n body s; forRange (i + n) m body s'.
Proof.
  revert i s. induction n as [|n IH]; intros i s; simpl.
  - by rewrite Nat.add_0_r.
  - destruct (body i s) as [s'|msg]; simpl; [|done].
    rewrite IH. by replace (Datatypes.S i + n) with (i + Datatypes.S n) by lia.
Qed.


Lemma forRange_ext {S : Type} (i n : nat) (body body' : nat -> S -> result S) s :
  (forall j t, i <= j < i + n -> body j t = body' j t) ->
  forRange i n body s = forRange i n body' s.
Proof.
  revert i s. induction n as [|n IH]; intros i s Hb; simpl; [done|].
  rewrite (Hb i s) by lia. destruct (body' i s) as [s'|msg]; simpl; [|done].
  apply IH. intros j t Hj. apply Hb. lia.
Qed.

Lemma forRange_pure {S : Type} (i n : nat) (f : nat -> S -> S) s :
  forRange i n (fun j t => Ok (f j t)) s = Ok (foldl (fun t j => f j t) s (seq i n)).
Proof.
  revert i s. induction n as [|n IH]; intros i s; simpl; [done|]. apply IH.
Qed.

Lemma result_bind_ext {A B : Type} (f g : A -> result B) (m : result A) :
  (forall a, f a = g a) -> (m ≫= f) = (m ≫= g).
Proof. intros Hfg. destruct m as [a|msg]; simpl; [apply Hfg|done]. Qed.

(** A loop whose body is a pure update as long as an invariant of the
    state holds. *)
Lemma forRange_pure_inv {S : Type} (P : S -> Prop) (i n : nat)
    (body : nat -> S -> result S) (f : nat -> S -> S) s :
  P s ->
  (forall j t, i <= j < i + n -> P t -> body j t = Ok (f j t) /\ P (f j t)) ->
  forRange i n body s = Ok (foldl (fun t j => f j t) s (seq i n))
  /\ P (foldl (fun t j => f j t) s (seq i n)).
Proof.
  revert i s. induction n as [|n IH]; intros i s Hs Hb; simpl; [done|].
  destruct (Hb i s ltac:(lia) Hs) as [-> Hs']. simpl.
  apply IH; [done|]. intros j t Hj Ht. apply Hb; [lia|done].
Qed.

(** ** internal/arrowutil: the copy loops *)

Section ArrowutilFacts.
Import Arrowutil.
Context {Val : Type}.
Variable byteLen : Val -> nat.

Abbreviation Builder := (Builder Val).
Abbreviation Interface := (Interface Val).

(** Appending a run of entries, one [push] each. *)
Lemma entries_pushes (g : nat -> option Val) (js : list nat) (b : Builder) :
  entries (foldl (fun t j => push (g j) t) b js) = entries b ++ map g js
  /\ btype (foldl (fun t j => push (g j) t) b js) = btype b.
Proof.
  revert b. induction js as [|j js IH]; intros b; simpl.
  - by rewrite app_nil_r.
  - destruct (IH (push (g j) b)) as [-> ->]. simpl.
    by rewrite <- app_assoc.
Qed.

Lemma map_slotEntry_seq (arr : list (Slot Val)) :
  map (slotEntry arr) (seq 0 (length arr)) = map entry arr.
Proof.
  apply list_eq. intros i. rewrite !list_lookup_fmap.
  destruct (decide (i < length arr)) as [Hi|Hi].
  - rewrite lookup_seq_lt by done. simpl. unfold slotEntry.
    destruct (lookup_lt_is_Some_2 arr i Hi) as [s Hs]. by rewrite Hs.
  - rewrite lookup_seq_ge by lia. by rewrite lookup_ge_None_2 by lia.
Qed.

Lemma Value_lookup {V : Type} (arr : list (Slot V)) (i : nat) (s : Slot V) :
  arr !! i = Some s -> Value arr i = Ok (raw s).
Proof. intros H. unfold Value. by rewrite H. Qed.

Lemma IsNull_lookup {V : Type} (arr : list (Slot V)) (i : nat) (s : Slot V) :
  arr !! i = Some s -> IsNull arr i = Ok (isnull s).
Proof. intros H. unfold IsNull. by rewrite H. Qed.

(** One iteration of the copy loop at an index inside the array. *)
Lemma copy_body_in (arr : list (Slot Val)) (j : nat) (b : Builder) :
  j < length arr ->
  (null ← IsNull arr j;
   if (null : bool) then Ok (AppendNull b)
   else v ← Value arr j; Ok (AppendValue v b))
  = Ok (push (slotEntry arr j) b).
Proof.
  intros Hj. destruct (lookup_lt_is_Some_2 arr j Hj) as [s Hs].
  unfold IsNull, Value, slotEntry, entry. rewrite Hs. simpl.
  destruct (isnull s); done.
Qed.

(** One iteration of the sizing pass of the string case. *)
Lemma size_body_in (arr : list (Slot Val)) (j sz : nat) :
  j < length arr ->
  (null ← IsNull arr j;
   if (null : bool) then Ok sz
   else l ← ValueLen byteLen arr j; Ok (sz + l))
  = Ok (sz + from_option byteLen 0 (slotEntry arr j)).
Proof.
  intros Hj. destruct (lookup_lt_is_Some_2 arr j Hj) as [s Hs].
  unfold ValueLen, IsNull, Value, slotEntry, entry. rewrite Hs. simpl.
  destruct (isnull s); simpl; [by rewrite Nat.add_0_r|done].
Qed.

(** The sizing pass never panics inside the array. *)
Lemma size_pass_ok (arr : list (Slot Val)) (n sz : nat) :
  n <= length arr ->
  exists sz', forRange 0 n (fun i sz =>
      null ← IsNull arr i;
      if (null : bool) then Ok sz
      else l ← ValueLen byteLen arr i; Ok (sz + l)) sz = Ok sz'.
Proof.
  intros Hn.
  rewrite (forRange_ext 0 n _
             (fun j t => Ok (t + from_option byteLen 0 (slotEntry arr j)))).
  - rewrite forRange_pure. by eexists.
  - intros j t Hj. apply size_body_in. lia.
Qed.

Lemma CopyNamesTo_entries (e : TmplEntry) (b : Builder) (arr : list (Slot Val)) :
  exists b', CopyNamesTo byteLen e b arr = Ok b'
    /\ entries b' = entries b ++ map entry arr
    /\ btype b' = btype b.
Proof.
  unfold CopyNamesTo, Len.
  set (b0 := Reserve (length arr) b).
  assert (exists b1, (if String.eqb (Name e) "String" then
             sz ← forRange 0 (length arr) (fun i sz =>
                    null ← IsNull arr i;
                    if (null : bool) then Ok sz
                    else l ← ValueLen byteLen arr i; Ok (sz + l)) 0;
             Ok (ReserveData sz b0)
           else Ok b0) = Ok b1
          /\ entries b1 = entries b /\ btype b1 = btype b)
    as (b1 & -> & He1 & Ht1).
  { destruct (String.eqb (Name e) "String").
    - destruct (size_pass_ok arr (length arr) 0) as [sz ->]; [lia|].
      simpl. by eexists.
    - by eexists. }
  simpl.
  rewrite (forRange_ext 0 (length arr) _
             (fun j t => Ok (push (slotEntry arr j) t))).
  2:{ intros j t Hj. apply copy_body_in. lia. }
  rewrite forRange_pure. eexists. split; [done|].
  destruct (entries_pushes (slotEntry arr) (seq 0 (length arr)) b1) as [-> ->].
  by rewrite map_slotEntry_seq, He1, Ht1.
Qed.

(** One iteration of the copy-by-index loop, the offset being in range. *)
Lemma index_body_in (arr : list (Slot Val)) (indices : list (Slot Z))
    (j : nat) (b : Builder) :
  inBounds arr indices -> j < length indices ->
  (z ← Value indices j;
   offset ← offsetOf z;
   null ← IsNull arr offset;
   if (null : bool) then Ok (AppendNull b)
   else v ← Value arr offset; Ok (AppendValue v b))
  = Ok (push (indexEntry arr indices j) b).
Proof.
  intros Hin Hj. destruct (lookup_lt_is_Some_2 indices j Hj) as [s Hs].
  pose proof (proj1 (Forall_lookup _ _) Hin j s Hs) as Hr. simpl in Hr.
  unfold indexEntry. rewrite Hs.
  rewrite (Value_lookup indices j s Hs). simpl.
  unfold offsetOf. destruct (Z.ltb_spec (raw s) 0) as [?|_]; [lia|]. simpl.
  apply copy_body_in. lia.
Qed.

Lemma index_size_body_in (arr : list (Slot Val)) (indices : list (Slot Z))
    (j sz : nat) :
  inBounds arr indices -> j < length indices ->
  (z ← Value indices j;
   offset ← offsetOf z;
   null ← IsNull arr offset;
   if (null : bool) then Ok sz
   else l ← ValueLen byteLen arr offset; Ok (sz + l))
  = Ok (sz + from_option byteLen 0 (indexEntry arr indices j)).
Proof.
  intros Hin Hj. destruct (lookup_lt_is_Some_2 indices j Hj) as [s Hs].
  pose proof (proj1 (Forall_lookup _ _) Hin j s Hs) as Hr. simpl in Hr.
  unfold indexEntry. rewrite Hs.
  rewrite (Value_lookup indices j s Hs). simpl.
  unfold offsetOf. destruct (Z.ltb_spec (raw s) 0) as [?|_]; [lia|]. simpl.
  apply size_body_in. lia.
Qed.

Lemma CopyNamesByIndexTo_entries (e : TmplEntry) (b : Builder)
    (arr : list (Slot Val)) (indices : list (Slot Z)) :
  inBounds arr indices ->
  exists b', CopyNamesByIndexTo byteLen e b arr indices = Ok b'
    /\ entries b' = entries b
         ++ map (indexEntry arr indices) (seq 0 (length indices))
    /\ btype b' = btype b.
Proof.
  intros Hin. unfold CopyNamesByIndexTo, Len.
  set (b0 := Reserve (length indices) b).
  assert (exists b1, (if String.eqb (Name e) "String" then
             sz ← forRange 0 (length indices) (fun i sz =>
                    z ← Value indices i;
                    offset ← offsetOf z;
                    null ← IsNull arr offset;
                    if (null : bool) then Ok sz
                    else l ← ValueLen byteLen arr offset; Ok (sz + l)) 0;
             Ok (ReserveData sz b0)
           else Ok b0) = Ok b1
          /\ entries b1 = entries b /\ btype b1 = btype b)
    as (b1 & -> & He1 & Ht1).
  { destruct (String.eqb (Name e) "String"); [|by eexists].
    rewrite (forRange_ext 0 (length indices) _
      (fun j t => Ok (t + from_option byteLen 0 (indexEntry arr indices j)))).
    - rewrite forRange_pure. simpl. by eexists.
    - intros j t Hj. apply index_size_body_in; [done|lia]. }
  simpl.
  rewrite (forRange_ext 0 (length indices) _
             (fun j t => Ok (push (indexEntry arr indices j) t))).
  2:{ intros j t Hj. apply index_body_in; [done|lia]. }
  rewrite forRange_pure. eexists. split; [done|].
  destruct (entries_pushes (indexEntry arr indices)
              (seq 0 (length indices)) b1) as [-> ->].
  by rewrite He1, Ht1.
Qed.

(** The type switch finds the case of a supported array, and the builder
    of that type passes the assertion. *)
Lemma typeSwitch_supported (tmpldata : list TmplEntry) (b : Builder)
    (arr : Interface) :
  supported tmpldata arr -> matching b arr ->
  exists e, typeSwitch tmpldata arr = Some e /\ assertBuilder e b = Ok b.
Proof.
  unfold supported, matching, typeSwitch, assertBuilder. intros Hs Hm.
  apply list_elem_of_fmap in Hs as (e0 & He0 & Hin).
  apply list_elem_of_In in Hin.
  destruct (List.find (fun e => String.eqb (Type_ e) (atype arr)) tmpldata)
    as [e|] eqn:Hf.
  - apply List.find_some in Hf as [_ Heq]. apply String.eqb_eq in Heq.
    exists e. split; [done|]. rewrite Hm, Heq. by rewrite String.eqb_refl.
  - exfalso. pose proof (List.find_none _ _ Hf e0 Hin) as Hn. simpl in Hn.
    rewrite <- He0, String.eqb_refl in Hn. done.
Qed.

(** C8. For every supported array [arr] and matching builder [b], [CopyTo]
    returns, and it appends to [b] exactly [Len arr] entries in the order
    of [arr]: the entries already in [b] stay, and the entry appended for
    index [i] is null exactly when [IsNull arr i], and is the value
    [Value arr i] otherwise. *)
Theorem CopyTo_appends (tmpldata : list TmplEntry) (b : Builder)
    (arr : Interface) :
  supported tmpldata arr -> matching b arr ->
  exists b', CopyTo byteLen tmpldata b arr = Ok b'
    /\ entries b' = entries b ++ map entry (aslots arr)
    /\ length (entries b') = length (entries b) + Len (aslots arr)
    /\ forall i, i < Len (aslots arr) ->
         exists null v,
           IsNull (aslots arr) i = Ok null /\ Value (aslots arr) i = Ok v
           /\ entries b' !! (length (entries b) + i)
              = Some (if (null : bool) then None else Some v).
Proof.
  intros Hs Hm. unfold CopyTo.
  destruct (typeSwitch_supported tmpldata b arr Hs Hm) as (e & -> & ->).
  simpl.
  destruct (CopyNamesTo_entries e b (aslots arr)) as (b' & -> & He & _).
  exists b'. split; [done|]. split; [done|]. split.
  - rewrite He, length_app, length_map. done.
  - unfold Len. intros i Hi.
    destruct (lookup_lt_is_Some_2 (aslots arr) i Hi) as [s Hsl].
    exists (isnull s), (raw s). unfold IsNull, Value. rewrite Hsl.
    split; [done|]. split; [done|].
    rewrite He, lookup_app_r by lia.
    replace (length (entries b) + i - length (entries b)) with i by lia.
    by rewrite list_lookup_fmap, Hsl.
Qed.


End ArrowutilFacts.

Example CopyTo_sample :
  Arrowutil.entries <$> Arrowutil.CopyTo String.length Arrowutil.sampleTmpldata
    Arrowutil.sampleBuilder Arrowutil.sampleArray
  = Ok [Some "x"; Some "a"; None; Some "bc"].
Proof. reflexivity. Qed.

Example CopyByIndexTo_sample :
  Arrowutil.entries <$> Arrowutil.CopyByIndexTo String.length
    Arrowutil.sampleTmpldata Arrowutil.sampleBuilder Arrowutil.sampleArray
    Arrowutil.sampleIndices
  = Ok [Some "x"; Some "bc"; None; Some "a"; Some "bc"].
Proof. reflexivity. Qed.

(** An array type without a case in the template, a builder of another
    type, and an offset outside the array each end in a panic. *)
Example CopyTo_unsupported :
  Arrowutil.CopyTo String.length Arrowutil.sampleTmpldata Arrowutil.sampleBuilder
    {| Arrowutil.atype := "array.Float"; Arrowutil.aslots := [] |}
  = Panic "unsupported array data type".
Proof. reflexivity. Qed.

Example CopyByIndexTo_out_of_range :
  Arrowutil.CopyByIndexTo String.length Arrowutil.sampleTmpldata
    Arrowutil.sampleBuilder Arrowutil.sampleArray
    [ {| Arrowutil.isnull := false; Arrowutil.raw := 3%Z |} ]
  = Panic "index out of range".
Proof. reflexivity. Qed.

Lemma CopyTo_appends_witness :
  exists b',
    Arrowutil.CopyTo String.length Arrowutil.sampleTmpldata
      Arrowutil.sampleBuilder Arrowutil.sampleArray = Ok b'
    /\ Arrowutil.entries b' = [Some "x"; Some "a"; None; Some "bc"].
Proof.
  destruct (CopyTo_appends String.length Arrowutil.sampleTmpldata
              Arrowutil.sampleBuilder Arrowutil.sampleArray)
    as (b' & Hrun & Hentries & _).
  - apply (bool_decide_unpack _). vm_compute. exact I.
  - reflexivity.
  - exists b'. split; [exact Hrun | exact Hentries].
Defined.


(** ** internal/arrowutil: single values, dispatch failures, and how the
       copies relate *)

Section ArrowutilMore.
Import Arrowutil.
Context {Val : Type}.
Variable byteLen : Val -> nat.
Variable tmpldata : list TmplEntry.

Abbreviation Builder := (Builder Val).
Abbreviation Interface := (Interface Val).

Lemma push_entries (o : option Val) (b : Builder) :
  entries (push o b) = entries b ++ [o] /\ btype (push o b) = btype b.
Proof. done. Qed.

Lemma typeSwitch_unsupported (arr : Interface) :
  ~ supported tmpldata arr -> typeSwitch tmpldata arr = None.
Proof.
  unfold supported, typeSwitch. intros Hn.
  destruct (List.find _ tmpldata) as [e|] eqn:Hf; [|done].
  apply List.find_some in Hf as [Hin Heq]. apply String.eqb_eq in Heq.
  exfalso. apply Hn. apply list_elem_of_fmap. exists e.
  split; [done|]. by apply list_elem_of_In.
Qed.

Lemma typeSwitch_type (arr : Interface) (e : TmplEntry) :
  typeSwitch tmpldata arr = Some e -> Type_ e = atype arr.
Proof.
  unfold typeSwitch. intros Hf. apply List.find_some in Hf as [_ Heq].
  by apply String.eqb_eq.
Qed.

(** X1. [CopyValue] at an index inside a supported array appends one entry to
    a matching builder: a null when the slot is null, its value
    otherwise. *)
Theorem CopyValue_appends (b : Builder) (arr : Interface) (i : nat) :
  supported tmpldata arr -> matching b arr -> i < Len (aslots arr) ->
  exists null v b',
    IsNull (aslots arr) i = Ok null /\ Value (aslots arr) i = Ok v
    /\ CopyValue tmpldata b arr i = Ok b'
    /\ entries b' = entries b ++ [if (null : bool) then None else Some v]
    /\ btype b' = btype b.
Proof.
  intros Hs Hm Hi. unfold CopyValue, Len in *.
  destruct (typeSwitch_supported tmpldata b arr Hs Hm) as (e & -> & ->).
  destruct (lookup_lt_is_Some_2 (aslots arr) i Hi) as [s Hsl].
  exists (isnull s), (raw s). simpl. unfold CopyNameValue.
  rewrite (IsNull_lookup _ _ _ Hsl), (Value_lookup _ _ _ Hsl). simpl.
  destruct (isnull s); simpl; eexists; (repeat split; done).
Qed.

(** X2. An array type without a case in the template makes the three
    dispatching functions panic, whatever the builder. *)
Theorem Copy_unsupported_panics (b : Builder) (arr : Interface)
    (indices : list (Slot Z)) (i : nat) :
  ~ supported tmpldata arr ->
  CopyTo byteLen tmpldata b arr = Panic "unsupported array data type"
  /\ CopyByIndexTo byteLen tmpldata b arr indices
     = Panic "unsupported array data type"
  /\ CopyValue tmpldata b arr i = Panic "unsupported array data type".
Proof.
  intros Hn. unfold CopyTo, CopyByIndexTo, CopyValue.
  by rewrite (typeSwitch_unsupported arr Hn).
Qed.

(** X3. A builder of another type than the array's makes the three
    dispatching functions panic before anything is copied. *)
Theorem Copy_mismatch_panics (b : Builder) (arr : Interface)
    (indices : list (Slot Z)) (i : nat) :
  supported tmpldata arr -> ~ matching b arr ->
  (exists msg, CopyTo byteLen tmpldata b arr = Panic msg)
  /\ (exists msg, CopyByIndexTo byteLen tmpldata b arr indices = Panic msg)
  /\ (exists msg, CopyValue tmpldata b arr i = Panic msg).
Proof.
  intros Hs Hm. unfold CopyTo, CopyByIndexTo, CopyValue.
  destruct (typeSwitch tmpldata arr) as [e|] eqn:Hsw.
  - pose proof (typeSwitch_type arr e Hsw) as Ht.
    unfold assertBuilder. rewrite Ht.
    destruct (String.eqb_spec (btype b) (atype arr +:+ "Builder")) as [Heq|_];
      [done|].
    simpl. repeat split; by eexists.
  - repeat split; by eexists.
Qed.

(** X4. The bulk copy and the copy value by value give the same entries. *)
Theorem CopyTo_as_CopyValue (b : Builder) (arr : Interface) :
  supported tmpldata arr -> matching b arr ->
  exists b1 b2,
    CopyTo byteLen tmpldata b arr = Ok b1
    /\ forRange 0 (Len (aslots arr))
         (fun i b => CopyValue tmpldata b arr i) b = Ok b2
    /\ entries b1 = entries b2 /\ btype b1 = btype b2.
Proof.
  intros Hs Hm.
  destruct (typeSwitch_supported tmpldata b arr Hs Hm) as (e & Hsw & Has).
  unfold CopyTo. rewrite Hsw, Has. simpl.
  destruct (CopyNamesTo_entries byteLen e b (aslots arr))
    as (b1 & -> & He1 & Ht1).
  destruct (forRange_pure_inv (fun t : Builder => btype t = btype b)
              0 (Len (aslots arr))
              (fun i t => CopyValue tmpldata t arr i)
              (fun j t => push (slotEntry (aslots arr) j) t) b)
    as [Hloop Htype]; [done| |].
  { intros j t Hj Ht. split; [|done].
    unfold CopyValue. rewrite Hsw.
    unfold assertBuilder. rewrite Ht.
    unfold assertBuilder in Has.
    destruct (String.eqb (btype b) (Type_ e +:+ "Builder")); [|done].
    simpl. apply copy_body_in. unfold Len in Hj. lia. }
  exists b1. eexists. split; [done|]. split; [exact Hloop|].
  destruct (entries_pushes (slotEntry (aslots arr))
              (seq 0 (Len (aslots arr))) b) as [-> ->].
  unfold Len. by rewrite map_slotEntry_seq, He1, Ht1.
Qed.

(** The copy loop and the sizing pass, one iteration, by the slot at
    the index. *)
Lemma copy_body_slot (arr : list (Slot Val)) (j : nat) (t : Builder) :
  (null ← IsNull arr j;
   if (null : bool) then Ok (AppendNull t)
   else v ← Value arr j; Ok (AppendValue v t))
  = match arr !! j with
    | Some s => Ok (push (entry s) t)
    | None => Panic "index out of range"
    end.
Proof.
  unfold IsNull, Value, entry. destruct (arr !! j) as [s|]; simpl; [|done].
  by destruct (isnull s).
Qed.

Lemma size_body_slot (arr : list (Slot Val)) (j sz : nat) :
  (null ← IsNull arr j;
   if (null : bool) then Ok sz
   else l ← ValueLen byteLen arr j; Ok (sz + l))
  = match arr !! j with
    | Some s => Ok (sz + from_option byteLen 0 (entry s))
    | None => Panic "index out of range"
    end.
Proof.
  unfold ValueLen, IsNull, Value, entry.
  destruct (arr !! j) as [s|]; simpl; [|done].
  destruct (isnull s); simpl; [by rewrite Nat.add_0_r|done].
Qed.

Lemma entry_lookup_eq (arr1 arr2 : list (Slot Val)) (j : nat) :
  map entry arr1 = map entry arr2 ->
  entry <$> arr1 !! j = entry <$> arr2 !! j.
Proof.
  intros H.
  assert (map entry arr1 !! j = map entry arr2 !! j) as Hj by (by rewrite H).
  by rewrite !list_lookup_fmap in Hj.
Qed.

Lemma CopyNamesTo_by_entries (e : TmplEntry) (b : Builder)
    (arr1 arr2 : list (Slot Val)) :
  map entry arr1 = map entry arr2 ->
  CopyNamesTo byteLen e b arr1 = CopyNamesTo byteLen e b arr2.
Proof.
  intros He. unfold CopyNamesTo, Len.
  assert (length arr1 = length arr2) as ->.
  { by rewrite <- (length_map entry arr1), He, length_map. }
  assert (forall j sz,
    (null ← IsNull arr1 j;
     if (null : bool) then Ok sz
     else l ← ValueLen byteLen arr1 j; Ok (sz + l))
    = (null ← IsNull arr2 j;
       if (null : bool) then Ok sz
       else l ← ValueLen byteLen arr2 j; Ok (sz + l))) as Hsize.
  { intros j sz. rewrite !size_body_slot.
    pose proof (entry_lookup_eq arr1 arr2 j He) as Hj.
    destruct (arr1 !! j), (arr2 !! j); simpl in Hj; simplify_eq; congruence. }
  assert (forall j (t : Builder),
    (null ← IsNull arr1 j;
     if (null : bool) then Ok (AppendNull t)
     else v ← Value arr1 j; Ok (AppendValue v t))
    = (null ← IsNull arr2 j;
       if (null : bool) then Ok (AppendNull t)
       else v ← Value arr2 j; Ok (AppendValue v t))) as Hcopy.
  { intros j t. rewrite !copy_body_slot.
    pose proof (entry_lookup_eq arr1 arr2 j He) as Hj.
    destruct (arr1 !! j), (arr2 !! j); simpl in Hj; simplify_eq; congruence. }
  rewrite (forRange_ext 0 (length arr2) _ _ 0 (fun j sz _ => Hsize j sz)).
  apply result_bind_ext. intros b1.
  apply forRange_ext. intros j t _. apply Hcopy.
Qed.

(** X5. What lies in the values buffer under a null has no influence on
    [CopyTo]: two arrays of one type with the same nulls and the same
    values elsewhere give the same outcome, capacities included. *)
Theorem CopyTo_ignores_raw_under_null (b : Builder) (arr1 arr2 : Interface) :
  atype arr1 = atype arr2 ->
  map entry (aslots arr1) = map entry (aslots arr2) ->
  CopyTo byteLen tmpldata b arr1 = CopyTo byteLen tmpldata b arr2.
Proof.
  intros Ht He. unfold CopyTo, typeSwitch. rewrite Ht.
  destruct (List.find _ tmpldata) as [e|]; [|done].
  apply result_bind_ext. intros b1. by apply CopyNamesTo_by_entries.
Qed.

Lemma Value_by_raw (indices1 indices2 : list (Slot Z)) (j : nat) :
  map raw indices1 = map raw indices2 ->
  Value indices1 j = Value indices2 j.
Proof.
  intros H. unfold Value.
  assert (map raw indices1 !! j = map raw indices2 !! j) as Hj
    by (by rewrite H).
  rewrite !list_lookup_fmap in Hj.
  destruct (indices1 !! j), (indices2 !! j); simpl in Hj; simplify_eq;
    congruence.
Qed.

(** X6. [CopyByIndexTo] does not look at the validity of the indices: a null
    index is read as the number in its slot. Index arrays with the same
    numbers give the same outcome, whatever their nulls. *)
Theorem CopyByIndexTo_ignores_index_nulls (b : Builder) (arr : Interface)
    (indices1 indices2 : list (Slot Z)) :
  map raw indices1 = map raw indices2 ->
  CopyByIndexTo byteLen tmpldata b arr indices1
  = CopyByIndexTo byteLen tmpldata b arr indices2.
Proof.
  intros Hr. unfold CopyByIndexTo.
  destruct (typeSwitch tmpldata arr) as [e|]; [|done].
  apply result_bind_ext. intros b1. unfold CopyNamesByIndexTo, Len.
  assert (length indices1 = length indices2) as ->.
  { by rewrite <- (length_map raw indices1), Hr, length_map. }
  rewrite (forRange_ext 0 (length indices2) _
    (fun i sz =>
       z ← Value indices2 i;
       offset ← offsetOf z;
       null ← IsNull (aslots arr) offset;
       if (null : bool) then Ok sz
       else l ← ValueLen byteLen (aslots arr) offset; Ok (sz + l)) 0).
  2:{ intros j sz _. by rewrite (Value_by_raw indices1 indices2 j Hr). }
  apply result_bind_ext. intros b2.
  apply forRange_ext. intros j t _.
  by rewrite (Value_by_raw indices1 indices2 j Hr).
Qed.

(** X7. Copying by the indices 0, 1, ..., [Len arr - 1] gives the entries that
    [CopyTo] gives. *)
Theorem CopyByIndexTo_all_indices (b : Builder) (arr : Interface)
    (indices : list (Slot Z)) :
  supported tmpldata arr -> matching b arr ->
  map raw indices = map Z.of_nat (seq 0 (Len (aslots arr))) ->
  exists b1 b2,
    CopyByIndexTo byteLen tmpldata b arr indices = Ok b1
    /\ CopyTo byteLen tmpldata b arr = Ok b2
    /\ entries b1 = entries b2.
Proof.
  intros Hs Hm Hr. unfold Len in Hr.
  assert (length indices = length (aslots arr)) as Hlen.
  { by rewrite <- (length_map raw indices), Hr, length_map, length_seq. }
  assert (forall j s, indices !! j = Some s -> raw s = Z.of_nat j
                      /\ j < length (aslots arr)) as Hraw.
  { intros j s Hj.
    assert ((map raw indices) !! j = Some (raw s)) as Hm'.
    { by rewrite list_lookup_fmap, Hj. }
    rewrite Hr, list_lookup_fmap in Hm'.
    apply lookup_lt_Some in Hj. rewrite lookup_seq_lt in Hm' by lia.
    simpl in Hm'. split; [congruence|lia]. }
  assert (inBounds (aslots arr) indices) as Hin.
  { apply Forall_lookup. intros j s Hj.
    destruct (Hraw j s Hj) as [-> ?]. simpl. lia. }
  destruct (typeSwitch_supported tmpldata b arr Hs Hm) as (e & Hsw & Has).
  unfold CopyByIndexTo, CopyTo. rewrite Hsw, Has. simpl.
  destruct (CopyNamesByIndexTo_entries byteLen e b (aslots arr) indices Hin)
    as (b1 & -> & He1 & _).
  destruct (CopyNamesTo_entries byteLen e b (aslots arr))
    as (b2 & -> & He2 & _).
  exists b1, b2. split; [done|]. split; [done|].
  rewrite He1, He2. f_equal. rewrite <- map_slotEntry_seq, Hlen.
  apply map_ext_in. intros j Hj. apply in_seq in Hj.
  destruct (lookup_lt_is_Some_2 indices j ltac:(lia)) as [s Hsj].
  unfold indexEntry. rewrite Hsj.
  destruct (Hraw j s Hsj) as [-> _]. by rewrite Nat2Z.id.
Qed.

(** X8. Copying an array in two parts, one after the other, gives the
    entries of copying it whole. *)
Theorem CopyTo_in_parts (b : Builder) (T : string)
    (slots1 slots2 : list (Slot Val)) :
  supported tmpldata {| atype := T; aslots := slots1 |} ->
  matching b {| atype := T; aslots := slots1 |} ->
  exists b1 b2 b12,
    CopyTo byteLen tmpldata b {| atype := T; aslots := slots1 |} = Ok b1
    /\ CopyTo byteLen tmpldata b1 {| atype := T; aslots := slots2 |} = Ok b2
    /\ CopyTo byteLen tmpldata b {| atype := T; aslots := slots1 ++ slots2 |}
       = Ok b12
    /\ entries b12 = entries b2.
Proof.
  intros Hs Hm.
  destruct (typeSwitch_supported tmpldata b _ Hs Hm) as (e & Hsw & Has).
  assert (typeSwitch tmpldata {| atype := T; aslots := slots2 |} = Some e)
    as Hsw2 by exact Hsw.
  assert (typeSwitch tmpldata {| atype := T; aslots := slots1 ++ slots2 |}
          = Some e) as Hsw12 by exact Hsw.
  unfold CopyTo. rewrite Hsw, Hsw2, Hsw12, Has. cbn [mbind result_bind aslots].
  destruct (CopyNamesTo_entries byteLen e b slots1) as (b1 & -> & He1 & Ht1).
  destruct (CopyNamesTo_entries byteLen e b (slots1 ++ slots2))
    as (b12 & -> & He12 & _).
  assert (assertBuilder e b1 = Ok b1) as Has1.
  { unfold assertBuilder in *. rewrite Ht1.
    by destruct (String.eqb (btype b) (Type_ e +:+ "Builder")). }
  destruct (CopyNamesTo_entries byteLen e b1 slots2) as (b2 & Hc2 & He2 & _).
  exists b1, b2, b12. split; [done|]. split.
  { rewrite Has1. exact Hc2. }
  split; [done|].
  by rewrite He12, He2, He1, map_app, app_assoc.
Qed.

Lemma dataCap_pushes (g : nat -> option Val) (js : list nat) (b : Builder) :
  dataCap (foldl (fun t j => push (g j) t) b js) = dataCap b.
Proof.
  revert b. induction js as [|j js IH]; intros b; simpl; [done|].
  by rewrite IH.
Qed.

Lemma foldl_add_sum (g : nat -> nat) (js : list nat) (a : nat) :
  foldl (fun t j => t + g j) a js = a + sum_list (map g js).
Proof.
  revert a. induction js as [|j js IH]; intros a; simpl; [lia|].
  rewrite IH. lia.
Qed.

(** X9. [Copy{{.Name}}sTo] reserves string data only in the String case, and
    there for the bytes of the values that are not null: a null adds
    nothing. *)
Theorem CopyNamesTo_reserves_data (e : TmplEntry) (b : Builder)
    (arr : list (Slot Val)) :
  exists b', CopyNamesTo byteLen e b arr = Ok b'
    /\ dataCap b'
       = dataCap b
         + (if String.eqb (Name e) "String" then dataBytes byteLen arr else 0).
Proof.
  unfold CopyNamesTo, Len.
  set (b0 := Reserve (length arr) b).
  assert (forall b1 : Builder,
            exists b', forRange 0 (length arr) (fun i b =>
                null ← IsNull arr i;
                if (null : bool) then Ok (AppendNull b)
                else v ← Value arr i; Ok (AppendValue v b)) b1 = Ok b'
              /\ dataCap b' = dataCap b1) as Hloop.
  { intros b1.
    rewrite (forRange_ext 0 (length arr) _
               (fun j t => Ok (push (slotEntry arr j) t))).
    2:{ intros j t Hj. apply copy_body_in. lia. }
    rewrite forRange_pure. eexists. split; [done|]. apply dataCap_pushes. }
  destruct (String.eqb (Name e) "String").
  - rewrite (forRange_ext 0 (length arr) _
      (fun j t => Ok (t + from_option byteLen 0 (slotEntry arr j)))).
    2:{ intros j t Hj. apply (size_body_in byteLen). lia. }
    rewrite forRange_pure. simpl.
    destruct (Hloop (ReserveData
                       (foldl (fun t j =>
                                 t + from_option byteLen 0 (slotEntry arr j))
                              0 (seq 0 (length arr))) b0))
      as (b' & -> & Hd).
    exists b'. split; [done|]. rewrite Hd. simpl.
    rewrite (foldl_add_sum (fun j => from_option byteLen 0 (slotEntry arr j))).
    unfold dataBytes. simpl. f_equal. f_equal.
    rewrite <- (map_map entry (from_option byteLen 0) arr).
    rewrite <- (map_slotEntry_seq arr). by rewrite map_map.
  - simpl. destruct (Hloop b0) as (b' & -> & Hd).
    exists b'. split; [done|]. rewrite Hd. simpl. lia.
Qed.

End ArrowutilMore.

Example CopyNamesTo_reserves_sample :
  Arrowutil.dataCap <$> Arrowutil.CopyTo String.length Arrowutil.sampleTmpldata
    Arrowutil.sampleBuilder Arrowutil.sampleArrayDirty
  = Ok 4.
Proof. reflexivity. Qed.

Lemma CopyValue_appends_witness :
  exists b',
    Arrowutil.CopyValue Arrowutil.sampleTmpldata Arrowutil.sampleBuilder
      Arrowutil.sampleArray 1 = Ok b'
    /\ Arrowutil.entries b' = [Some "x"; None].
Proof.
  destruct (CopyValue_appends Arrowutil.sampleTmpldata Arrowutil.sampleBuilder
              Arrowutil.sampleArray 1)
    as (null & v & b' & Hnull & _ & Hrun & Hentries & _).
  - apply (bool_decide_unpack _). vm_compute. exact I.
  - reflexivity.
  - vm_compute. lia.
  - exists b'. split; [exact Hrun|].
    injection Hnull as <-. exact Hentries.
Defined.

Lemma Copy_unsupported_panics_witness :
  Arrowutil.CopyTo String.length Arrowutil.sampleTmpldata
    Arrowutil.sampleBuilder Arrowutil.sampleFloatArray
  = Panic "unsupported array data type".
Proof.
  apply (Copy_unsupported_panics String.length Arrowutil.sampleTmpldata
           Arrowutil.sampleBuilder Arrowutil.sampleFloatArray [] 0).
  apply (bool_decide_unpack _). vm_compute. exact I.
Defined.

Lemma Copy_mismatch_panics_witness :
  exists msg,
    Arrowutil.CopyTo String.length Arrowutil.sampleTmpldata
      Arrowutil.sampleIntBuilder Arrowutil.sampleArray = Panic msg.
Proof.
  apply (Copy_mismatch_panics String.length Arrowutil.sampleTmpldata
           Arrowutil.sampleIntBuilder Arrowutil.sampleArray [] 0).
  - apply (bool_decide_unpack _). vm_compute. exact I.
  - apply (bool_decide_unpack _). vm_compute. exact I.
Defined.

Lemma CopyTo_as_CopyValue_witness :
  exists b1 b2,
    Arrowutil.CopyTo String.length Arrowutil.sampleTmpldata
      Arrowutil.sampleBuilder Arrowutil.sampleArray = Ok b1
    /\ forRange 0 3
         (fun i b => Arrowutil.CopyValue Arrowutil.sampleTmpldata b
                       Arrowutil.sampleArray i)
         Arrowutil.sampleBuilder = Ok b2
    /\ Arrowutil.entries b1 = Arrowutil.entries b2.
Proof.
  destruct (CopyTo_as_CopyValue String.length Arrowutil.sampleTmpldata
              Arrowutil.sampleBuilder Arrowutil.sampleArray)
    as (b1 & b2 & H1 & H2 & He & _).
  - apply (bool_decide_unpack _). vm_compute. exact I.
  - reflexivity.
  - exists b1, b2. split; [exact H1|]. split; [exact H2|exact He].
Defined.

Lemma CopyTo_ignores_raw_under_null_witness :
  Arrowutil.CopyTo String.length Arrowutil.sampleTmpldata
    Arrowutil.sampleBuilder Arrowutil.sampleArray
  = Arrowutil.CopyTo String.length Arrowutil.sampleTmpldata
      Arrowutil.sampleBuilder Arrowutil.sampleArrayDirty.
Proof.
  apply (CopyTo_ignores_raw_under_null String.length Arrowutil.sampleTmpldata
           Arrowutil.sampleBuilder Arrowutil.sampleArray
           Arrowutil.sampleArrayDirty); reflexivity.
Defined.

Lemma CopyByIndexTo_ignores_index_nulls_witness :
  Arrowutil.CopyByIndexTo String.length Arrowutil.sampleTmpldata
    Arrowutil.sampleBuilder Arrowutil.sampleArray Arrowutil.sampleIndices
  = Arrowutil.CopyByIndexTo String.length Arrowutil.sampleTmpldata
      Arrowutil.sampleBuilder Arrowutil.sampleArray
      Arrowutil.sampleIndicesValid.
Proof.
  apply (CopyByIndexTo_ignores_index_nulls String.length
           Arrowutil.sampleTmpldata Arrowutil.sampleBuilder
           Arrowutil.sampleArray Arrowutil.sampleIndices
           Arrowutil.sampleIndicesValid).
  reflexivity.
Defined.

Lemma CopyByIndexTo_all_indices_witness :
  exists b1 b2,
    Arrowutil.CopyByIndexTo String.length Arrowutil.sampleTmpldata
      Arrowutil.sampleBuilder Arrowutil.sampleArray Arrowutil.sampleAllIndices
    = Ok b1
    /\ Arrowutil.CopyTo String.length Arrowutil.sampleTmpldata
         Arrowutil.sampleBuilder Arrowutil.sampleArray = Ok b2
    /\ Arrowutil.entries b1 = Arrowutil.entries b2.
Proof.
  apply (CopyByIndexTo_all_indices String.length Arrowutil.sampleTmpldata
           Arrowutil.sampleBuilder Arrowutil.sampleArray
           Arrowutil.sampleAllIndices).
  - apply (bool_decide_unpack _). vm_compute. exact I.
  - reflexivity.
  - reflexivity.
Defined.

Lemma CopyTo_in_parts_witness :
  exists b1 b2 b12,
    Arrowutil.CopyTo String.length Arrowutil.sampleTmpldata
      Arrowutil.sampleBuilder
      {| Arrowutil.atype := "array.String";
         Arrowutil.aslots := Arrowutil.aslots Arrowutil.sampleArray |} = Ok b1
    /\ Arrowutil.CopyTo String.length Arrowutil.sampleTmpldata b1
         {| Arrowutil.atype := "array.String";
            Arrowutil.aslots := Arrowutil.aslots Arrowutil.sampleArrayDirty |}
       = Ok b2
    /\ Arrowutil.CopyTo String.length Arrowutil.sampleTmpldata
         Arrowutil.sampleBuilder
         {| Arrowutil.atype := "array.String";
            Arrowutil.aslots := Arrowutil.aslots Arrowutil.sampleArray
                                ++ Arrowutil.aslots Arrowutil.sampleArrayDirty |}
       = Ok b12
    /\ Arrowutil.entries b12 = Arrowutil.entries b2.
Proof.
  apply (CopyTo_in_parts String.length Arrowutil.sampleTmpldata
           Arrowutil.sampleBuilder "array.String"
           (Arrowutil.aslots Arrowutil.sampleArray)
           (Arrowutil.aslots Arrowutil.sampleArrayDirty)).
  - apply (bool_decide_unpack _). vm_compute. exact I.
  - reflexivity.
Defined.

(** ** The per-key protocol at a node *)

Section Protocol.
Import Execute.
Implicit Types (st : gmap (Edge * GroupKey) KeyState) (evs : list NodeEvent).

Lemma count_app p evs1 evs2 :
  count p (evs1 ++ evs2) = count p evs1 + count p evs2.
Proof. induction evs1 as [|ev evs1 IH]; simpl; [done|]. rewrite IH. lia. Qed.






End Protocol.

Example sampleTrace_accepted :
  Execute.nodeRun ∅ Execute.sampleTrace = inr Execute.sampleFinal.
Proof. vm_compute. reflexivity. Qed.

(** A Process after the Finish, and a second Finish, are refused. *)
Example Process_after_Finish_refused :
  Execute.nodeRun ∅
    [ Execute.Deliver 0 (Execute.Process (Execute.tableOf Execute.keyA ["1"]));
      Execute.Deliver 0 (Execute.Finish Execute.keyA None);
      Execute.Deliver 0 (Execute.Process (Execute.tableOf Execute.keyA ["2"])) ]
  = inl Execute.protocolViolation.
Proof. vm_compute. reflexivity. Qed.

Example Finish_twice_refused :
  Execute.nodeRun ∅
    [ Execute.Deliver 0 (Execute.Finish Execute.keyA None);
      Execute.Flushed 0 Execute.keyA;
      Execute.Deliver 0 (Execute.Finish Execute.keyA None) ]
  = inl Execute.protocolViolation.
Proof. vm_compute. reflexivity. Qed.

(** ** Sources, delivery, and the protocol at the node *)

Section Engine.
Import Execute.
Implicit Types (st : gmap (Edge * GroupKey) KeyState).
Implicit Types (P R : list (Edge * Message)) (s : Edge * GroupKey).




(** *** What a Source sends *)





(** *** What is pending at the node *)






(** *** One delivery *)





(** *** The full drain *)



End Engine.

(** Two Sources on the edges 0 and 1 of a node, the first cancelled after
    three pulls, under a scheduling that always settles on the newest
    pending message. *)
Example engineTrace_sample :
  Execute.count (Execute.isProcess 0 Execute.keyB)
    (Execute.engineTrace Execute.pickNewest Execute.sampleSources)
  + Execute.count (Execute.isProcess 0 Execute.keyA)
      (Execute.engineTrace Execute.pickNewest Execute.sampleSources)
  + Execute.count (Execute.isProcess 1 Execute.keyA)
      (Execute.engineTrace Execute.pickNewest Execute.sampleSources) = 4
  /\ Execute.count (Execute.isFinish 0 Execute.keyB)
       (Execute.engineTrace Execute.pickNewest Execute.sampleSources) = 1
  /\ head (Execute.engineTrace Execute.pickNewest Execute.sampleSources)
     = Some (Execute.Deliver 1
               (Execute.Process (Execute.tableOf Execute.keyA ["6"]))).
Proof. vm_compute. done. Qed.


(** ** Single-pass Tables *)

Section Tables.
Import Execute.
Context {S : Type}.
Implicit Types (t : Table) (s : S) (ops : list (TableOp S)).

Lemma tableStep_spent t s op :
  spent t ->
  spent (tableStep t s op).1.1 /\ (tableStep t s op).1.2 = s
  /\ forall f, op = OpDo f -> exists err, (tableStep t s op).2 = Some err.
Proof.
  unfold spent. intros Hsp. destruct op as [f|]; simpl.
  - unfold Do. destruct (phase t) eqn:Hp; [done|..]; simpl;
      (split; [by rewrite Hp|]; split; [done|]; intros; by eexists).
  - repeat split; done.
Qed.

(** A spent Table answers every [Do] with an error and never runs the
    callback: the caller's state stays as it was. *)
Lemma tableRun_spent t s ops :
  spent t ->
  (tableRun t s ops).2 = s
  /\ forall i f, ops !! i = Some (OpDo f) ->
       exists err, (tableRun t s ops).1 !! i = Some (Some err).
Proof.
  revert t s. induction ops as [|op ops IH]; intros t s Hsp; simpl.
  - split; [done|]. intros i f Hi. by rewrite lookup_nil in Hi.
  - destruct (tableStep_spent t s op Hsp) as (Hsp' & Hs & Herr).
    destruct (tableStep t s op) as [[t' s'] r] eqn:Hstep. simpl in *.
    subst s'. destruct (IH t' s Hsp') as [Hfin Hdo].
    destruct (tableRun t' s ops) as [rs s''] eqn:Hrun. simpl in *.
    split; [done|]. intros [|i] f Hi; simpl in *.
    + injection Hi as ->. destruct (Herr f eq_refl) as [err ->]. by eexists.
    + by apply (Hdo i f).
Qed.

(** C7. The first [Do] on a sealed Table hands the columns to the
    callback and returns what the callback returns, nil when it succeeds.
    Whatever the caller does next with the Table, every further [Do]
    returns an error and does not run its callback; the same holds for
    every [Do] on a Table that was released before any pass. *)
Theorem Do_single_pass (b : TableBuilder)
    (f : list (list string) -> S -> S * option Error) s ops :
  (Do f (Seal b) s).1.2 = (f (bColumns b) s).1
  /\ (Do f (Seal b) s).2 = (f (bColumns b) s).2
  /\ (tableRun (Do f (Seal b) s).1.1 (Do f (Seal b) s).1.2 ops).2
     = (Do f (Seal b) s).1.2
  /\ (forall i g, ops !! i = Some (OpDo g) ->
        exists err,
          (tableRun (Do f (Seal b) s).1.1 (Do f (Seal b) s).1.2 ops).1 !! i
          = Some (Some err))
  /\ (tableRun (Release (Seal b)) s ops).2 = s
  /\ (forall i g, ops !! i = Some (OpDo g) ->
        exists err,
          (tableRun (Release (Seal b)) s ops).1 !! i = Some (Some err)).
Proof.
  assert (spent (Do f (Seal b) s).1.1) as Hsp1.
  { unfold Do, spent. simpl. by destruct (f (bColumns b) s). }
  assert (spent (Release (Seal b))) as Hsp2 by done.
  split; [|split].
  - unfold Do. simpl. by destruct (f (bColumns b) s).
  - unfold Do. simpl. by destruct (f (bColumns b) s).
  - destruct (tableRun_spent _ (Do f (Seal b) s).1.2 ops Hsp1) as [H1 H2].
    destruct (tableRun_spent _ s ops Hsp2) as [H3 H4].
    done.
Qed.

End Tables.

(** A second pass over the sample table: the callback that records the
    columns it is given runs once. *)
Example Do_twice_sample :
  let record := fun cols (seen : list (list (list string))) =>
                  (seen ++ [cols], @None Execute.Error) in
  let t := Execute.tableOf Execute.keyA ["1"; "2"] in
  Execute.tableRun t [] [Execute.OpDo record; Execute.OpDo record;
                         Execute.OpRelease; Execute.OpDo record]
  = ([None; Some Execute.alreadyRead; None; Some Execute.alreadyReleased],
     [[["1"; "2"]]]).
Proof. reflexivity. Qed.

Lemma Do_single_pass_witness :
  exists err,
    (Execute.tableRun
       (Execute.Do (fun cols (n : nat) => (n + length cols, None))
          (Execute.Seal {| Execute.bKey := Execute.keyA;
                           Execute.bSchema := [("_value", Execute.KString)];
                           Execute.bColumns := [["1"; "2"]] |}) 0).1.1
       1
       [Execute.OpDo (fun cols (n : nat) => (n + length cols, None))]).1 !! 0
    = Some (Some err).
Proof.
  destruct (Do_single_pass
              {| Execute.bKey := Execute.keyA;
                 Execute.bSchema := [("_value", Execute.KString)];
                 Execute.bColumns := [["1"; "2"]] |}
              (fun cols (n : nat) => (n + length cols, None)) 0
              [Execute.OpDo (fun cols (n : nat) => (n + length cols, None))])
    as (_ & _ & _ & Hdo & _).
  apply (Hdo 0 (fun cols (n : nat) => (n + length cols, None))).
  reflexivity.
Defined.


(** ** The cancel slot of the REPL *)

Section CancelSlot.
Import Repl.
Implicit Types (r : REPL) (ops : list SlotOp).

Lemma cancel_clears r : cancelFunc (cancel r) = None.
Proof. unfold cancel. by destruct (cancelFunc r) eqn:H. Qed.

Lemma cancel_nil r : cancelFunc r = None -> cancel r = r.
Proof. unfold cancel. by intros ->. Qed.

Lemma cancel_iter r n :
  cancelFunc r = None -> Nat.iter n cancel r = r.
Proof.
  intros Hr. induction n as [|n IH]; simpl; [done|].
  rewrite IH. by apply cancel_nil.
Qed.

Lemma Nat_iter_comm {A : Type} (f : A -> A) (n : nat) (a : A) :
  Nat.iter n f (f a) = f (Nat.iter n f a).
Proof. induction n as [|n IH]; simpl; [done|]. by rewrite IH. Qed.

(** What one call adds to the invocations: at most the function in the
    slot, and only when it leaves the slot empty. *)
Lemma slotStep_called r op :
  length (called (slotStep r op))
    + pending (slotStep r op)
  <= length (called r) + pending r
     + (if registers op then 1 else 0).
Proof.
  destruct r as [[c|] l]; destruct op as [|[cf|]|];
    unfold pending, cancel; simpl; rewrite ?length_app; simpl; lia.
Qed.

Lemma registrations_cons op ops :
  registrations (op :: ops) = (if registers op then 1 else 0) + registrations ops.
Proof. unfold registrations. simpl. by destruct (registers op). Qed.

Lemma slotRun_called r ops :
  length (called (slotRun r ops)) + pending (slotRun r ops)
  <= length (called r) + pending r + registrations ops.
Proof.
  revert r. induction ops as [|op ops IH]; intros r.
  - simpl. lia.
  - change (slotRun r (op :: ops)) with (slotRun (slotStep r op) ops).
    rewrite registrations_cons.
    specialize (IH (slotStep r op)). pose proof (slotStep_called r op). lia.
Qed.

(** C10. After [cancel] returns the slot is nil; a second [cancel] with no
    [setCancel] in between changes nothing and invokes nothing; [cancel]
    on a REPL without a running query (nil slot) does nothing; after
    [setCancel] stores a function, any number of [cancel] calls invoke it
    once at most; and over any run of calls, [cancel] invokes no more
    functions than were stored. *)
Theorem cancel_idempotent :
  (forall r, cancelFunc (cancel r) = None)
  /\ (forall r, cancel (cancel r) = cancel r)
  /\ (forall r, cancelFunc r = None -> cancel r = r)
  /\ (forall r cf n,
        called (Nat.iter n cancel (setCancel (Some cf) r))
        = called r ++ match n with O => [] | Datatypes.S _ => [cf] end)
  /\ (forall r ops,
        length (called (slotRun r ops))
        <= length (called r) + pending r
           + registrations ops).
Proof.
  split; [exact cancel_clears|].
  split; [intros r; apply cancel_nil, cancel_clears|].
  split; [exact cancel_nil|].
  split.
  - intros r cf [|n]; simpl; [by rewrite app_nil_r|].
    rewrite <- Nat_iter_comm. by rewrite cancel_iter.
  - intros r ops. pose proof (slotRun_called r ops). lia.
Qed.

End CancelSlot.

(** SIGINT twice during one query, then the deferred [clearCancel]. *)
Example cancel_twice_sample :
  Repl.slotRun Repl.New
    [ Repl.OpSetCancel (Some 7); Repl.OpCancel; Repl.OpCancel;
      Repl.OpClearCancel; Repl.OpCancel ]
  = {| Repl.cancelFunc := None; Repl.called := [7] |}.
Proof. reflexivity. Qed.

Lemma cancel_idempotent_witness : Repl.cancel Repl.New = Repl.New.
Proof.
  destruct cancel_idempotent as (_ & _ & Hnil & _).
  apply (Hnil Repl.New). reflexivity.
Defined.

(** [doQuery] stores its cancel function on entry and clears the slot on
    every return; the call it makes itself is the deferred one. *)
Lemma doQuery_clears_slot WriteTo cf started r :
  Repl.repl (Repl.doQuery WriteTo cf started r)
  = {| Repl.cancelFunc := None; Repl.called := Repl.called r |}
  /\ Repl.deferred (Repl.doQuery WriteTo cf started r) = [cf].
Proof.
  unfold Repl.doQuery.
  destruct started as [err|err|qry]; simpl; [done..|].
  destruct (Repl.printResults WriteTo (Repl.Results qry) [])
    as [out [err|]]; done.
Qed.

(** ** Loading and evaluating a line *)

Section LoadingFacts.
Import Repl.
Context {E FluxPkg Bytes SemPkg Ctx Interp SideEffect : Type}.
Variable ReadFile : string -> E + string.
Variable Analyze : string -> E + FluxPkg.
Variable MarshalFB : FluxPkg -> E + Bytes.
Variable DeserializeFromFlatBuffer : Bytes -> E + SemPkg.
Variable Inject : Ctx -> Ctx.
Variable itrpEval : Ctx -> SemPkg -> Interp -> Interp * (list SideEffect * option E).

Lemma at_is_not_dash (rest : string) : String.eqb (String "@" rest) "-" = false.
Proof. reflexivity. Qed.

(** X10. A query that is not ["-"] and does not start with [@] is returned as
    it is, without an error, whatever standard input and the files
    hold. *)
Theorem LoadQuery_plain (Stdin : E + string) (q : string) :
  q <> "-" -> (forall rest, q <> String "@" rest) ->
  LoadQuery Stdin ReadFile q = (q, None).
Proof.
  intros Hdash Hat. unfold LoadQuery.
  destruct (String.eqb_spec q "-") as [?|_]; [done|].
  destruct q as [|c rest]; [done|].
  destruct (Ascii.eqb_spec c "@") as [->|_]; [|done].
  by destruct (Hat rest).
Qed.

(** X11. [LoadQuery] returns the empty string with every error. *)
Theorem LoadQuery_error_empty (Stdin : E + string) (q : string) (err : E) :
  (LoadQuery Stdin ReadFile q).2 = Some err ->
  (LoadQuery Stdin ReadFile q).1 = "".
Proof.
  unfold LoadQuery. destruct (String.eqb q "-").
  - by destruct Stdin.
  - destruct q as [|c rest]; [done|].
    destruct (Ascii.eqb c "@"); [|done]. by destruct (ReadFile rest).
Qed.

(** X12. [Eval] never reads standard input: its result is the same
    whatever standard input holds. A line that is not empty and does not
    start with [@] is analysed as it is; so is the line ["-"], which
    [LoadQuery] would read from standard input. *)
Theorem Eval_never_reads_stdin (Stdin1 Stdin2 : E + string) (t : string)
    (st : @EvalState Ctx Interp) :
  Eval Stdin1 ReadFile Analyze MarshalFB DeserializeFromFlatBuffer
    Inject itrpEval t st
  = Eval Stdin2 ReadFile Analyze MarshalFB DeserializeFromFlatBuffer
      Inject itrpEval t st
  /\ (t <> "" -> (forall rest, t <> String "@" rest) ->
      Eval Stdin1 ReadFile Analyze MarshalFB DeserializeFromFlatBuffer
        Inject itrpEval t st
      = evalText Analyze MarshalFB DeserializeFromFlatBuffer Inject itrpEval
          t st)
  /\ Eval Stdin1 ReadFile Analyze MarshalFB DeserializeFromFlatBuffer
       Inject itrpEval "-" st
     = evalText Analyze MarshalFB DeserializeFromFlatBuffer Inject itrpEval
         "-" st.
Proof.
  split; [|split; [|done]].
  - unfold Eval. destruct t as [|c rest]; [done|].
    destruct (Ascii.eqb_spec c "@") as [->|_]; [|done].
    unfold LoadQuery. by rewrite at_is_not_dash.
  - intros Hne Hat. unfold Eval. destruct t as [|c rest]; [done|].
    destruct (Ascii.eqb_spec c "@") as [->|_]; [|done].
    by destruct (Hat rest).
Qed.

(** X13. A line [@path] evaluates the text of the file [path] as it is: the
    text is handed to the analyzer also when it is empty or starts with
    [@] itself, while the empty line returns at once. *)
Theorem Eval_file_line (Stdin : E + string) (path content : string)
    (st : @EvalState Ctx Interp) :
  ReadFile path = inr content ->
  Eval Stdin ReadFile Analyze MarshalFB DeserializeFromFlatBuffer
    Inject itrpEval (String "@" path) st
  = evalText Analyze MarshalFB DeserializeFromFlatBuffer Inject itrpEval
      content st
  /\ Eval Stdin ReadFile Analyze MarshalFB DeserializeFromFlatBuffer
       Inject itrpEval "" st
     = (st, ([], None)).
Proof.
  intros Hread. split; [|done].
  unfold Eval, LoadQuery. cbn [Ascii.eqb Bool.eqb].
  rewrite at_is_not_dash. cbn [Ascii.eqb Bool.eqb]. by rewrite Hread.
Qed.

(** X14. What [Eval] does with a line that is not empty. When the file
    of a line [@path] cannot be read, [Eval] returns the error of the
    read. When the text (the line itself, or for a line [@path] the text
    of the file) fails in [analyzeLine], [Eval] returns that error. In
    both cases there is no side effect, and the context and the
    interpreter stay as they were. Otherwise [Eval] runs the interpreter
    once, on the analysed package and under the context with the
    execution dependencies injected once, keeps that context, and returns
    what the interpreter returns. *)
Theorem Eval_state (Stdin : E + string) (t : string)
    (st : @EvalState Ctx Interp) :
  t <> "" ->
  (forall path err, t = String "@" path -> ReadFile path = inl err ->
     Eval Stdin ReadFile Analyze MarshalFB DeserializeFromFlatBuffer
       Inject itrpEval t st = (st, ([], Some err)))
  /\ (forall text,
        (text = t /\ forall rest, t <> String "@" rest)
        \/ (exists path, t = String "@" path /\ ReadFile path = inr text) ->
        match analyzeLine Analyze MarshalFB DeserializeFromFlatBuffer text with
        | inl err =>
            Eval Stdin ReadFile Analyze MarshalFB DeserializeFromFlatBuffer
              Inject itrpEval t st = (st, ([], Some err))
        | inr pkg =>
            Eval Stdin ReadFile Analyze MarshalFB DeserializeFromFlatBuffer
              Inject itrpEval t st
            = ({| ctx := Inject (ctx st);
                  interp := (itrpEval (Inject (ctx st)) pkg (interp st)).1 |},
               (itrpEval (Inject (ctx st)) pkg (interp st)).2)
        end).
Proof.
  intros Hne.
  assert (forall text,
    match analyzeLine Analyze MarshalFB DeserializeFromFlatBuffer text with
    | inl err =>
        evalText Analyze MarshalFB DeserializeFromFlatBuffer Inject itrpEval
          text st = (st, ([], Some err))
    | inr pkg =>
        evalText Analyze MarshalFB DeserializeFromFlatBuffer Inject itrpEval
          text st
        = ({| ctx := Inject (ctx st);
              interp := (itrpEval (Inject (ctx st)) pkg (interp st)).1 |},
           (itrpEval (Inject (ctx st)) pkg (interp st)).2)
    end) as Htext.
  { intros text. unfold evalText.
    destruct (analyzeLine Analyze MarshalFB DeserializeFromFlatBuffer text)
      as [err|pkg]; [done|].
    by destruct (itrpEval (Inject (ctx st)) pkg (interp st)). }
  split.
  - intros path err -> Hread. unfold Eval, LoadQuery.
    cbn [Ascii.eqb Bool.eqb]. rewrite at_is_not_dash.
    cbn [Ascii.eqb Bool.eqb]. by rewrite Hread.
  - intros text [[-> Hat]|(path & -> & Hread)].
    + unfold Eval. destruct t as [|c rest]; [done|].
      destruct (Ascii.eqb_spec c "@") as [->|_]; [|apply Htext].
      by destruct (Hat rest).
    + unfold Eval, LoadQuery. cbn [Ascii.eqb Bool.eqb].
      rewrite at_is_not_dash. cbn [Ascii.eqb Bool.eqb]. rewrite Hread.
      apply Htext.
Qed.

End LoadingFacts.

(** Sample files and a sample analyzer: one file on disk, and an analyzer
    that refuses the empty text. *)
Example Eval_empty_file_sample :
  let ReadFile := fun name => if String.eqb name "empty.flux"
                              then inr "" else inl "no such file" in
  let Analyze := fun t => if String.eqb t "" then inl "empty text"
                          else inr t in
  let eval := Repl.Eval (inl "stdin closed") ReadFile Analyze
                (fun pkg => inr pkg) (fun bs => inr bs) S
                (fun (c : nat) (pkg : string) (seen : list string) =>
                   (seen ++ [pkg], ([pkg], None))) in
  let st := {| Repl.ctx := 0; Repl.interp := [] |} in
  eval "@empty.flux" st = (st, ([], Some "empty text"))
  /\ eval "" st = (st, ([], None))
  /\ eval "-" st = ({| Repl.ctx := 1; Repl.interp := ["-"] |}, (["-"], None))
  /\ eval "@missing.flux" st = (st, ([], Some "no such file")).
Proof. vm_compute. done. Qed.

Lemma LoadQuery_plain_witness :
  Repl.LoadQuery (inl "stdin closed") (fun _ => inl "no such file") "1 + 1"
  = ("1 + 1", None).
Proof.
  apply (LoadQuery_plain (fun _ => inl "no such file") (inl "stdin closed")
           "1 + 1").
  - discriminate.
  - intros rest. discriminate.
Defined.

Lemma LoadQuery_error_empty_witness :
  (Repl.LoadQuery (inl "stdin closed") (fun _ => inl "no such file")
     "@missing.flux").1 = "".
Proof.
  apply (LoadQuery_error_empty (fun _ => inl "no such file")
           (inl "stdin closed") "@missing.flux" "no such file").
  reflexivity.
Defined.

Lemma Eval_file_line_witness :
  Repl.Eval (inl "stdin closed")
    (fun name => if String.eqb name "q.flux" then inr "@x" else inl "no such file")
    (fun t => inr t) (fun pkg => inr pkg) (fun bs => inr bs) S
    (fun (c : nat) (pkg : string) (seen : list string) =>
       (seen ++ [pkg], ([pkg], @None string)))
    "@q.flux" {| Repl.ctx := 0; Repl.interp := [] |}
  = ({| Repl.ctx := 1; Repl.interp := ["@x"] |}, (["@x"], None)).
Proof.
  destruct (Eval_file_line
              (fun name => if String.eqb name "q.flux" then inr "@x"
                           else inl "no such file")
              (fun t => inr t) (fun pkg => inr pkg) (fun bs => inr bs) S
              (fun (c : nat) (pkg : string) (seen : list string) =>
                 (seen ++ [pkg], ([pkg], @None string)))
              (inl "stdin closed") "q.flux" "@x"
              {| Repl.ctx := 0; Repl.interp := [] |}) as [Heval _].
  - reflexivity.
  - rewrite Heval. reflexivity.
Defined.

Lemma Eval_never_reads_stdin_witness :
  Repl.Eval (inl "stdin closed") (fun _ => inl "no such file")
    (fun t => inr t) (fun pkg => inr pkg) (fun bs => inr bs) S
    (fun (c : nat) (pkg : string) (seen : list string) =>
       (seen ++ [pkg], ([pkg], @None string)))
    "1 + 1" {| Repl.ctx := 0; Repl.interp := [] |}
  = ({| Repl.ctx := 1; Repl.interp := ["1 + 1"] |}, (["1 + 1"], None)).
Proof.
  destruct (Eval_never_reads_stdin (fun _ => inl "no such file")
              (fun t => inr t) (fun pkg => inr pkg) (fun bs => inr bs) S
              (fun (c : nat) (pkg : string) (seen : list string) =>
                 (seen ++ [pkg], ([pkg], @None string)))
              (inl "stdin closed") (inr "from stdin") "1 + 1"
              {| Repl.ctx := 0; Repl.interp := [] |}) as (_ & Hplain & _).
  rewrite Hplain.
  - reflexivity.
  - discriminate.
  - intros rest. discriminate.
Defined.

Lemma Eval_state_witness :
  Repl.Eval (inl "stdin closed")
    (fun name => if String.eqb name "q.flux" then inr "1 + 1"
                 else inl "no such file")
    (fun t : string => @inr string string t)
    (fun pkg : string => @inr string string pkg)
    (fun bs : string => @inr string string bs) S
    (fun (c : nat) (pkg : string) (seen : list string) =>
       (seen ++ [pkg], ([pkg], @None string)))
    "@q.flux" {| Repl.ctx := 0; Repl.interp := ["x = 1"] |}
  = ({| Repl.ctx := 1; Repl.interp := ["x = 1"; "1 + 1"] |},
     (["1 + 1"], None)).
Proof.
  destruct (Eval_state
              (fun name => if String.eqb name "q.flux" then inr "1 + 1"
                           else inl "no such file")
              (fun t : string => @inr string string t)
              (fun pkg : string => @inr string string pkg)
              (fun bs : string => @inr string string bs) S
              (fun (c : nat) (pkg : string) (seen : list string) =>
                 (seen ++ [pkg], ([pkg], @None string)))
              (inl "stdin closed") "@q.flux"
              {| Repl.ctx := 0; Repl.interp := ["x = 1"] |}) as [_ Htext].
  - discriminate.
  - apply (Htext "1 + 1"). right. exists "q.flux". split; reflexivity.
Defined.

(** ** What the result loop prints *)

Section LoopFacts.
Import Execute Repl.
Variable WriteTo : Table -> Error + string.
Variable Encode : list Result -> Error + string.

Lemma writeTables_all ts doErr out :
  Forall (writes WriteTo) ts ->
  writeTables WriteTo ts doErr out = (out ++ map (textOf WriteTo) ts, doErr).
Proof.
  revert out. induction ts as [|t ts IH]; intros out Hok; simpl.
  - by rewrite app_nil_r.
  - apply Forall_cons in Hok as [[text Ht] Hok]. unfold textOf at 1.
    rewrite Ht. rewrite IH by done. by rewrite <- app_assoc.
Qed.

Lemma writeTables_failure ts1 t ts2 doErr err out :
  Forall (writes WriteTo) ts1 -> WriteTo t = inl err ->
  writeTables WriteTo (ts1 ++ t :: ts2) doErr out
  = (out ++ map (textOf WriteTo) ts1, Some err).
Proof.
  revert out. induction ts1 as [|t1 ts1 IH]; intros out Hok Hfail; simpl.
  - by rewrite Hfail, app_nil_r.
  - apply Forall_cons in Hok as [[text Ht] Hok]. unfold textOf at 1.
    rewrite Ht. rewrite IH by done. by rewrite <- app_assoc.
Qed.

(** A Result whose Tables are all written and whose stream has not
    failed. *)
Lemma printResults_all rs out :
  Forall (fun res => Forall (writes WriteTo) (Tables res)) rs ->
  Forall (fun res => DoErr res = None) rs ->
  printResults WriteTo rs out = (out ++ rendered WriteTo rs, None).
Proof.
  revert out. induction rs as [|res rs IH]; intros out Hok Hdo; simpl.
  - by rewrite app_nil_r.
  - apply Forall_cons in Hok as [Hres Hok].
    apply Forall_cons in Hdo as [Hd Hdo].
    rewrite writeTables_all, Hd by done. rewrite IH by done.
    by rewrite <- !app_assoc.
Qed.

Lemma printResults_failure rs1 res rs2 ts1 t ts2 err out :
  Forall (fun res => Forall (writes WriteTo) (Tables res)) rs1 ->
  Forall (fun res => DoErr res = None) rs1 ->
  Tables res = ts1 ++ t :: ts2 ->
  Forall (writes WriteTo) ts1 -> WriteTo t = inl err ->
  printResults WriteTo (rs1 ++ res :: rs2) out
  = (out ++ rendered WriteTo rs1 ++ ("Result: " +:+ Name res)
       :: map (textOf WriteTo) ts1, Some err).
Proof.
  intros Hok Hdo Hts Hts1 Hfail.
  revert out. induction rs1 as [|res1 rs1 IH]; intros out.
  - simpl. rewrite Hts, (writeTables_failure ts1 t ts2 _ err) by done.
    by rewrite <- app_assoc.
  - apply Forall_cons in Hok as [Hres Hok].
    apply Forall_cons in Hdo as [Hd Hdo]. simpl.
    rewrite writeTables_all, Hd by done. rewrite IH by done.
    by rewrite <- !app_assoc.
Qed.

Lemma printResults_stream_failure rs1 res rs2 err out :
  Forall (fun res => Forall (writes WriteTo) (Tables res)) (rs1 ++ [res]) ->
  Forall (fun res => DoErr res = None) rs1 ->
  DoErr res = Some err ->
  printResults WriteTo (rs1 ++ res :: rs2) out
  = (out ++ rendered WriteTo (rs1 ++ [res]), Some err).
Proof.
  intros Hok Hdo Hfail.
  revert out. induction rs1 as [|res1 rs1 IH]; intros out.
  - simpl in Hok. apply Forall_cons in Hok as [Hok _]. simpl.
    rewrite (writeTables_all _ _ _ Hok), Hfail.
    by rewrite app_nil_r, <- app_assoc.
  - simpl in Hok. apply Forall_cons in Hok as [Hres Hok].
    apply Forall_cons in Hdo as [Hd Hdo]. simpl.
    rewrite writeTables_all, Hd by done. rewrite IH by done.
    by rewrite <- !app_assoc.
Qed.

(** X15. When every write succeeds: if no stream of the Query has failed,
    [doQuery] prints each Result in turn, its name line followed by its
    Tables in order, and returns the error of the Query; if the stream of
    a Result has failed ([Do] returns an error after its Tables),
    [doQuery] prints the Results up to that one, its Tables included,
    prints nothing of the later Results, and returns the error of the
    stream, not the error of the Query. *)
Theorem doQuery_prints_all cf qry r :
  Forall (fun res => Forall (writes WriteTo) (Tables res)) (Results qry) ->
  (Forall (fun res => DoErr res = None) (Results qry) ->
   stdout (doQuery WriteTo cf (Running qry) r) = rendered WriteTo (Results qry)
   /\ returned (doQuery WriteTo cf (Running qry) r) = QueryErr qry)
  /\ (forall rs1 res rs2 err,
        Results qry = rs1 ++ res :: rs2 ->
        Forall (fun res => DoErr res = None) rs1 ->
        DoErr res = Some err ->
        stdout (doQuery WriteTo cf (Running qry) r)
        = rendered WriteTo (rs1 ++ [res])
        /\ returned (doQuery WriteTo cf (Running qry) r) = Some err).
Proof.
  intros Hok. split.
  - intros Hdo. unfold doQuery. by rewrite printResults_all by done.
  - intros rs1 res rs2 err Hrs Hdo Hfail. unfold doQuery.
    rewrite Hrs in *.
    rewrite (printResults_stream_failure rs1 res rs2 err); [done| |done..].
    rewrite Forall_app in Hok. destruct Hok as [Hok1 Hok2].
    apply Forall_cons in Hok2 as [Hres _].
    apply Forall_app. split; [done|]. by apply Forall_singleton.
Qed.

(** X16. When a write fails, and no stream of an earlier Result has
    failed, [doQuery] stops there: it has printed what comes before the
    failing Table, the name line of its Result included, prints nothing of
    what follows, and returns the error of the write, not the error of the
    Query. *)
Theorem doQuery_write_error cf qry r rs1 res rs2 ts1 t ts2 err :
  Results qry = rs1 ++ res :: rs2 ->
  Tables res = ts1 ++ t :: ts2 ->
  Forall (fun res => Forall (writes WriteTo) (Tables res)) rs1 ->
  Forall (fun res => DoErr res = None) rs1 ->
  Forall (writes WriteTo) ts1 -> WriteTo t = inl err ->
  stdout (doQuery WriteTo cf (Running qry) r)
  = rendered WriteTo rs1 ++ ("Result: " +:+ Name res) :: map (textOf WriteTo) ts1
  /\ returned (doQuery WriteTo cf (Running qry) r) = Some err.
Proof.
  intros Hrs Hts Hok1 Hdo Hok2 Hfail. unfold doQuery.
  by rewrite Hrs, (printResults_failure rs1 res rs2 ts1 t ts2 err) by done.
Qed.

(** X17. [doQuery] leaves the cancel slot nil on every return, without having
    gone through [cancel]: a SIGINT that arrives after the query has
    returned invokes nothing. *)
Theorem doQuery_then_cancel cf started r :
  cancel (repl (doQuery WriteTo cf started r)) = repl (doQuery WriteTo cf started r)
  /\ called (repl (doQuery WriteTo cf started r)) = called r.
Proof.
  unfold doQuery.
  destruct started as [err|err|qry]; simpl; [done..|].
  by destruct (printResults WriteTo (Results qry) []) as [out [err|]].
Qed.

End LoopFacts.

Example doQuery_sample :
  let ran := Repl.doQuery Repl.sampleWriteTo 7 (Repl.Running Repl.sampleQuery)
               Repl.New in
  Repl.stdout ran = ["Result: first"; "0"; "Result: _result"; "1,2"]
  /\ Repl.returned ran = Some (Execute.OperatorError "write failed")
  /\ Repl.repl ran = Repl.New.
Proof. vm_compute. done. Qed.

Example doQuery_stream_failure_sample :
  let ran := Repl.doQuery Repl.sampleWriteTo 7
               (Repl.Running Repl.sampleQueryFailing) Repl.New in
  Repl.stdout ran = ["Result: first"; "0"; "Result: second"; "1"]
  /\ Repl.returned ran = Some (Execute.OperatorError "division by zero").
Proof. vm_compute. done. Qed.

Lemma doQuery_prints_all_witness :
  (Repl.stdout (Repl.doQuery Repl.sampleWriteTo 7
                  (Repl.Running Repl.sampleQueryWritable) Repl.New)
   = ["Result: first"; "0"; "Result: last"; "5,6"]
   /\ Repl.returned (Repl.doQuery Repl.sampleWriteTo 7
                       (Repl.Running Repl.sampleQueryWritable) Repl.New)
      = Some Execute.Canceled)
  /\ Repl.returned (Repl.doQuery Repl.sampleWriteTo 7
                      (Repl.Running Repl.sampleQueryFailing) Repl.New)
     = Some (Execute.OperatorError "division by zero").
Proof.
  split.
  - destruct (doQuery_prints_all Repl.sampleWriteTo 7
                Repl.sampleQueryWritable Repl.New) as [Hall _].
    + apply (bool_decide_unpack _). vm_compute. exact I.
    + apply Hall. apply (bool_decide_unpack _). vm_compute. exact I.
  - destruct (doQuery_prints_all Repl.sampleWriteTo 7
                Repl.sampleQueryFailing Repl.New) as [_ Hfail].
    + apply (bool_decide_unpack _). vm_compute. exact I.
    + apply (Hfail
               [ {| Repl.Name := "first";
                    Repl.Tables := [Execute.tableOf Execute.keyA ["0"]];
                    Repl.DoErr := None |} ]
               Repl.sampleFailedResult
               [ {| Repl.Name := "last";
                    Repl.Tables := [Execute.tableOf Execute.keyA ["5"]];
                    Repl.DoErr := None |} ]
               (Execute.OperatorError "division by zero")).
      * reflexivity.
      * apply (bool_decide_unpack _). vm_compute. exact I.
      * reflexivity.
Defined.

Lemma doQuery_write_error_witness :
  Repl.returned (Repl.doQuery Repl.sampleWriteTo 7
                   (Repl.Running Repl.sampleQuery) Repl.New)
  = Some (Execute.OperatorError "write failed").
Proof.
  apply (doQuery_write_error Repl.sampleWriteTo 7 Repl.sampleQuery Repl.New
           [ {| Repl.Name := "first";
                Repl.Tables := [Execute.tableOf Execute.keyA ["0"]];
                Repl.DoErr := None |} ]
           Repl.sampleResult
           [ {| Repl.Name := "last";
                Repl.Tables := [Execute.tableOf Execute.keyA ["5"]];
                Repl.DoErr := None |} ]
           [Execute.tableOf Execute.keyA ["1"; "2"]]
           (Execute.tableOf Execute.keyB ["3"])
           [Execute.tableOf Execute.keyA ["4"]]
           (Execute.OperatorError "write failed")).
  - reflexivity.
  - reflexivity.
  - apply (bool_decide_unpack _). vm_compute. exact I.
  - apply (bool_decide_unpack _). vm_compute. exact I.
  - apply (bool_decide_unpack _). vm_compute. exact I.
  - reflexivity.
Defined.

(** ** Completion *)

Section StringOrder.

Lemma ascii_compare_refl (a : ascii) : Ascii.compare a a = Eq.
Proof. unfold Ascii.compare. apply N.compare_refl. Qed.

Lemma ascii_compare_lt_trans (a b c : ascii) :
  Ascii.compare a b = Lt -> Ascii.compare b c = Lt -> Ascii.compare a c = Lt.
Proof.
  unfold Ascii.compare. rewrite !N.compare_lt_iff. lia.
Qed.

Lemma string_compare_trans (a b c : string) :
  String.compare a b <> Gt -> String.compare b c <> Gt ->
  String.compare a c <> Gt.
Proof.
  revert b c. induction a as [|x a IH]; intros [|y b] [|z c]; simpl;
    try done.
  destruct (Ascii.compare x y) eqn:Hxy; [| |done].
  - apply Ascii.compare_eq_iff in Hxy as ->.
    destruct (Ascii.compare y z) eqn:Hyz; [|done..]. apply IH.
  - destruct (Ascii.compare y z) eqn:Hyz; [| |done].
    + apply Ascii.compare_eq_iff in Hyz as ->. by rewrite Hxy.
    + by rewrite (ascii_compare_lt_trans x y z Hxy Hyz).
Qed.

Lemma strLe_trans (a b c : string) :
  Repl.strLe a b -> Repl.strLe b c -> Repl.strLe a c.
Proof.
  unfold Repl.strLe, String.leb. intros Hab Hbc.
  pose proof (string_compare_trans a b c) as Ht.
  destruct (String.compare a b), (String.compare b c),
    (String.compare a c); try done; exfalso; by apply Ht.
Qed.

Lemma strLe_total (a b : string) : Repl.strLe a b \/ Repl.strLe b a.
Proof. apply String.leb_total. Qed.

End StringOrder.

Section CompleterFacts.
Import Repl.

Lemma insertString_perm n l : Permutation (insertString n l) (n :: l).
Proof.
  induction l as [|m l IH]; simpl; [done|].
  destruct (String.leb n m); [done|].
  rewrite IH. apply perm_swap.
Qed.

Lemma sortStrings_perm l : Permutation (sortStrings l) l.
Proof.
  induction l as [|n l IH]; simpl; [done|].
  rewrite insertString_perm. by constructor.
Qed.

Lemma insertString_sorted n l :
  StronglySorted strLe l -> StronglySorted strLe (insertString n l).
Proof.
  induction 1 as [|m l Hl IH Hm]; simpl.
  - repeat constructor.
  - destruct (String.leb n m) eqn:Hnm.
    + constructor; [by constructor|]. constructor; [done|].
      eapply Forall_impl; [exact Hm|]. intros x Hx.
      by apply (strLe_trans n m x).
    + constructor; [done|].
      rewrite insertString_perm. constructor; [|done].
      destruct (strLe_total n m) as [H|H]; [|done].
      unfold strLe in H. congruence.
Qed.

Lemma sortStrings_sorted l : StronglySorted strLe (sortStrings l).
Proof.
  induction l as [|n l IH]; simpl; [constructor|].
  by apply insertString_sorted.
Qed.

Lemma StronglySorted_filter_bool (p : string -> bool) l :
  StronglySorted strLe l -> StronglySorted strLe (List.filter p l).
Proof.
  induction 1 as [|m l Hl IH Hm]; simpl; [constructor|].
  destruct (p m); [|done]. constructor; [done|].
  apply Forall_forall. intros x Hx. apply list_elem_of_In in Hx.
  apply List.filter_In in Hx as [Hx _].
  apply (proj1 (Forall_forall _ _) Hm). by apply list_elem_of_In.
Qed.

Lemma HasPrefix_char (n : string) (a : ascii) :
  HasPrefix n (String a "") = true <-> exists rest, n = String a rest.
Proof.
  unfold HasPrefix. rewrite String.prefix_correct.
  destruct n as [|c rest]; simpl.
  - split; [done|]. by intros [? ?].
  - assert (String.substring 0 0 rest = "") as -> by (by destruct rest).
    split.
    + intros [= ->]. by eexists.
    + by intros [? [= -> _]].
Qed.

Lemma shown_spec n :
  shown n = true <-> n = "_" \/ forall rest, n <> String "_" rest.
Proof.
  unfold shown. rewrite orb_true_iff, String.eqb_eq, negb_true_iff.
  rewrite <- not_true_iff_false, HasPrefix_char.
  split; (intros [H|H]; [by left|right]).
  - intros rest ->. apply H. by eexists.
  - intros [rest ->]. by apply (H rest).
Qed.

(** X19. The scope names that [completer] offers are the names of the scope
    that are [_] itself or do not start with [_], each as often as the
    scope visit gives it, in increasing byte order. *)
Theorem offered_names (names : list string) :
  StronglySorted strLe (offered names)
  /\ Permutation (offered names) (List.filter shown names)
  /\ forall n, n ∈ offered names
       <-> n ∈ names /\ (n = "_" \/ forall rest, n <> String "_" rest).
Proof.
  unfold offered. split; [|split].
  - apply StronglySorted_filter_bool, sortStrings_sorted.
  - induction (sortStrings_perm names); simpl.
    + done.
    + destruct (shown x); [by constructor|done].
    + destruct (shown x), (shown y); try done. apply perm_swap.
    + etransitivity; eassumption.
  - intros n. rewrite !list_elem_of_In, List.filter_In, <- shown_spec.
    rewrite <- !list_elem_of_In. by rewrite (sortStrings_perm names).
Qed.

Context {E : Type}.
Variable Glob : string -> E + list string.
Variable Dir : string -> string.
Variable Join : string -> string -> string.
Variable ReadDir : string -> E + list FileInfo.
Variable PathSeparator : string.
Variable FilterHasPrefix : list Suggest -> string -> bool -> list Suggest.

Lemma names_loop (l : list string) (s : list Suggest) :
  foldl (fun s n => if shown n then s ++ [{| SuggestText := n |}] else s) s l
  = s ++ map Build_Suggest (List.filter shown l).
Proof.
  revert s. induction l as [|n l IH]; intros s; simpl.
  - by rewrite app_nil_r.
  - rewrite IH. destruct (shown n); [|done]. simpl.
    by rewrite <- app_assoc.
Qed.

Lemma append_loop {A : Type} (g : A -> Suggest) (l : list A)
    (s : list Suggest) :
  foldl (fun s x => s ++ [g x]) s l = s ++ map g l.
Proof.
  revert s. induction l as [|x l IH]; intros s; simpl.
  - by rewrite app_nil_r.
  - rewrite IH. by rewrite <- app_assoc.
Qed.

(** X20. Unless the text of the document is empty or starts with [@],
    [completer] does not consult the file system: what it hands to the
    filter are the offered scope names and nothing else. *)
Theorem completer_names_only (names : list string) (d : Document) :
  Text d <> "" -> (forall rest, Text d <> String "@" rest) ->
  completer Glob Dir Join ReadDir PathSeparator FilterHasPrefix names d
  = FilterHasPrefix (map Build_Suggest (offered names))
      (WordBeforeCursor d) true.
Proof.
  intros Hne Hat. unfold completer, candidates. f_equal.
  destruct (String.eqb_spec (Text d) "") as [?|_]; [done|]. simpl.
  assert (HasPrefix (Text d) "@" = false) as ->.
  { apply not_true_iff_false. rewrite HasPrefix_char.
    intros [rest Hrest]. by destruct (Hat rest). }
  by rewrite names_loop.
Qed.

(** X21. Whatever the file system returns, the candidates of [completer] are
    the offered scope names first, followed by suggestions that all start
    with [@]. *)
Theorem candidates_shape (names : list string) (d : Document) :
  exists files,
    candidates Glob Dir Join ReadDir PathSeparator names d
    = map Build_Suggest (offered names) ++ files
    /\ Forall (fun c => exists rest, SuggestText c = String "@" rest) files.
Proof.
  unfold candidates. rewrite names_loop. simpl.
  fold (offered names).
  destruct (String.eqb (Text d) "" || HasPrefix (Text d) "@").
  - set (root := "./" +:+ TrimPrefix (Text d) "@").
    destruct (getFluxFiles Glob root) as [err|fluxFiles];
      destruct (getDirs Dir Join ReadDir root) as [err'|dirs];
      rewrite ?append_loop, <- ?app_assoc.
    + exists []. by rewrite app_nil_r.
    + eexists. split; [done|]. apply Forall_fmap, Forall_true.
      intros x. by eexists.
    + eexists. split; [done|]. apply Forall_fmap, Forall_true.
      intros x. by eexists.
    + eexists. split; [done|]. apply Forall_app.
      split; apply Forall_fmap, Forall_true; intros x; by eexists.
  - exists []. by rewrite app_nil_r.
Qed.

End CompleterFacts.

(** A scope with private names, and a directory with one Flux file and
    one subdirectory. *)
Example completer_sample :
  let Glob := fun pattern : string =>
                if String.eqb pattern "./*.flux" then inr ["q.flux"]
                else @inl string (list string) "bad pattern" in
  let ReadDir := fun dir : string =>
                   @inr string _ [ {| Repl.FileName := "q.flux"; Repl.IsDir := false |};
                                   {| Repl.FileName := "lib"; Repl.IsDir := true |} ] in
  let complete := Repl.completer Glob (fun _ => ".")
                    (fun _ name => name) ReadDir "/"
                    (fun s _ _ => s) ["b"; "_x"; "_"; "a"] in
  complete {| Repl.Text := ""; Repl.WordBeforeCursor := "" |}
  = map Repl.Build_Suggest ["_"; "a"; "b"; "@q.flux"; "@lib/"]
  /\ complete {| Repl.Text := "a"; Repl.WordBeforeCursor := "a" |}
     = map Repl.Build_Suggest ["_"; "a"; "b"].
Proof. vm_compute. done. Qed.

Lemma offered_names_witness : "a" ∈ Repl.offered ["b"; "_x"; "_"; "a"].
Proof.
  destruct (offered_names ["b"; "_x"; "_"; "a"]) as (_ & _ & Hin).
  apply Hin. split.
  - apply (bool_decide_unpack _). vm_compute. exact I.
  - right. intros rest. discriminate.
Defined.

Lemma completer_names_only_witness :
  Repl.completer (fun _ : string => @inl string (list string) "unused")
    (fun p => p) (fun dir name => name)
    (fun _ : string => @inl string (list Repl.FileInfo) "unused") "/"
    (fun s _ _ => s) ["b"; "_x"; "_"; "a"]
    {| Repl.Text := "a"; Repl.WordBeforeCursor := "a" |}
  = map Repl.Build_Suggest (Repl.offered ["b"; "_x"; "_"; "a"]).
Proof.
  apply (completer_names_only
           (fun _ : string => @inl string (list string) "unused")
           (fun p => p) (fun dir name => name)
           (fun _ : string => @inl string (list Repl.FileInfo) "unused") "/"
           (fun s _ _ => s) ["b"; "_x"; "_"; "a"]
           {| Repl.Text := "a"; Repl.WordBeforeCursor := "a" |}).
  - discriminate.
  - intros rest. discriminate.
Defined.
